(** * Route assembly over a weighted graph: admissibility, expansion, fallback

    A shallow embedding of [src/algorithm.py] (functions [is_valid],
    [_expand_path], [_baseline_admissible_path], [run]) together with the
    part of the networkx graph interface those functions call. *)

From Stdlib Require Import ZArith QArith Lia.
From stdpp Require Import gmap list.

Local Open Scope Z_scope.

(** ** Python values and exceptions *)

(** The exceptions the code can meet: the two that [nx.shortest_path]
    raises and the code catches, the two that subscripting raises, and
    the one that [float] raises on an [int] that is too large. *)
Inductive exn :=
  NetworkXNoPath | NodeNotFound | IndexError | KeyError | OverflowError.

Inductive result (A : Type) : Type :=
  | Ok (a : A)
  | Raise (e : exn).
Arguments Ok {A} a.
Arguments Raise {A} e.

#[global] Instance result_ret : MRet result := λ A, @Ok A.
#[global] Instance result_bind : MBind result := λ A B f m,
  match m with
  | Ok a => f a
  | Raise e => Raise e
  end.

(** [l[i]] for a non-negative index. *)
Definition index {A} (l : list A) (i : nat) : result A :=
  match l !! i with
  | Some x => Ok x
  | None => Raise IndexError
  end.

(** A quantity is a Python number: an [int] or a [float]. The program
    copies floats and compares them with zero but never computes with
    them, so a float is kept as the rational it stands for (no NaN, no
    infinities). Turning an [int] into a float does round and can
    overflow: see [float_of_int]. *)
Inductive PyNum :=
  | PyInt (z : Z)
  | PyFloat (q : Q).

Definition num_val (x : PyNum) : Q :=
  match x with
  | PyInt z => inject_Z z
  | PyFloat q => q
  end.

(** Python's [==] on numbers compares values across [int] and [float]. *)
Definition num_eqb (x y : PyNum) : bool := Qeq_bool (num_val x) (num_val y).

(** [float(z)] for an [int]: the nearest number with 53 significant bits,
    a tie going to the even one, and OverflowError when that number is
    2**1024 or more. *)
Definition float_of_int (z : Z) : result PyNum :=
  let a := Z.abs z in
  let bits := Z.log2 a + 1 in
  if bits <=? 53 then Ok (PyFloat (inject_Z z))
  else
    let e := bits - 53 in
    let q := a / 2 ^ e in
    let r := a mod 2 ^ e in
    let half := 2 ^ (e - 1) in
    let q' := if (half <? r) || ((r =? half) && Z.odd q) then q + 1 else q in
    let v := q' * 2 ^ e in
    if 2 ^ 1024 <=? v then Raise OverflowError
    else Ok (PyFloat (inject_Z (Z.sgn z * v))).

(** [float(x)] *)
Definition py_float (x : PyNum) : result PyNum :=
  match x with
  | PyInt z => float_of_int z
  | PyFloat q => Ok (PyFloat q)
  end.

(** The number [float(x)] gives where it gives one. *)
Definition float_value (x : PyNum) : PyNum :=
  match py_float x with
  | Ok f => f
  | Raise _ => PyFloat 0%Q
  end.

Definition Waypoint : Type := Z * PyNum.
Definition Path : Type := list Waypoint.

(** Tuple equality [(n1, q1) == (n2, q2)]. *)
Definition wp_eqb (w1 w2 : Waypoint) : bool :=
  (w1.1 =? w2.1) && num_eqb w1.2 w2.2.

Definition zero_float : PyNum := PyFloat 0%Q.
Definition zero_int : PyNum := PyInt 0.

(** ** The graph, as networkx stores it *)

Record NodeAttrs := { gold : option PyNum }.

(** [_node] maps a node to its attributes, [_adj] maps a node to its
    neighbours and the ["dist"] of the edge to each. An undirected graph
    keeps both directions in [_adj]. *)
Record Graph := {
  _node : gmap Z NodeAttrs;
  _adj : gmap Z (gmap Z Q)
}.

Definition has_node (G : Graph) (n : Z) : bool :=
  match _node G !! n with
  | Some _ => true
  | None => false
  end.

(** [G.has_edge(u, v)]: [v in G._adj[u]], and [False] on a KeyError. *)
Definition has_edge (G : Graph) (u v : Z) : bool :=
  match _adj G !! u with
  | Some nbrs =>
      match nbrs !! v with
      | Some _ => true
      | None => false
      end
  | None => false
  end.

Definition number_of_nodes (G : Graph) : nat := size (_node G).

(** [G.nodes[i]] *)
Definition nodes_getitem (G : Graph) (i : Z) : result NodeAttrs :=
  match _node G !! i with
  | Some d => Ok d
  | None => Raise KeyError
  end.

(** [d.get("gold", 0)] *)
Definition get_gold (d : NodeAttrs) : PyNum :=
  match gold d with
  | Some g => g
  | None => zero_int
  end.

(** ** Walks *)

(** Every two consecutive nodes of [p] are joined by an edge. *)
Fixpoint linked (G : Graph) (p : list Z) : Prop :=
  match p with
  | u :: (v :: _) as q => has_edge G u v = true ∧ linked G q
  | _ => True
  end.

Definition walk (G : Graph) (a b : Z) (p : list Z) : Prop :=
  head p = Some a ∧ last p = Some b ∧ linked G p.

Definition connected (G : Graph) (a b : Z) : Prop := ∃ p, walk G a b p.

(** ** The shortest-path service

    [nx.shortest_path(G, a, b, weight="dist")] is library code. The
    development is parametric in it and relies on its documented
    behaviour only: it returns a walk from [a] to [b], raises
    [NodeNotFound] exactly when an endpoint is not a node, raises
    [NetworkXNoPath] exactly when both are nodes and no walk joins them,
    and raises nothing else. Which of several walks is returned is left
    open. *)
Class PathOracle := {
  shortest_path : Graph → Z → Z → result (list Z);
  sp_walk : ∀ G a b p, shortest_path G a b = Ok p → walk G a b p;
  sp_node_not_found : ∀ G a b,
    shortest_path G a b = Raise NodeNotFound ↔
    has_node G a = false ∨ has_node G b = false;
  sp_no_path : ∀ G a b,
    shortest_path G a b = Raise NetworkXNoPath ↔
    has_node G a = true ∧ has_node G b = true ∧ ¬ connected G a b;
  sp_raises : ∀ G a b e,
    shortest_path G a b = Raise e → e = NetworkXNoPath ∨ e = NodeNotFound
}.

(** ** The program *)

Record Trip := { stops : list Z; pickups : list PyNum }.

Definition is_valid (G : Graph) (path : Path) : bool :=
  match path with
  | [] => false
  | (n0, _) :: _ =>
      if negb (n0 =? 0) && negb (has_edge G 0 n0) then false
      else forallb (λ '((n1, _), (n2, _)), has_edge G n1 n2)
                   (zip path (tail path))
  end.

Section Program.
Context `{PathOracle}.

(** The waypoints [(full[j], gold_b if j == len(full) - 1 else 0.0)] for
    [j] in [range(1, len(full))]. *)
Definition segment_rest (full : list Z) (gold_b : PyNum) : Path :=
  (λ j : nat,
     (nth j full 0,
      if (j =? length full - 1)%nat then gold_b else zero_float))
  <$> seq 1 (length full - 1).

(** The body of the [for i] loop of [_expand_path], over the indices
    still to visit, with [out] the list built so far. *)
Fixpoint expand_loop (G : Graph) (stops : list Z) (pickups : list PyNum)
    (idx : list nat) (out : Path) : result Path :=
  match idx with
  | [] => Ok out
  | i :: rest =>
      a ← index stops i;
      b ← index stops (i + 1);
      gold_a ← index pickups i;
      gold_b ← index pickups (i + 1);
      match shortest_path G a b with
      | Raise NetworkXNoPath | Raise NodeNotFound => Ok []
      | Raise e => Raise e
      | Ok full =>
          out1 ← (if (i =? 0)%nat
                   then f0 ← index full 0; Ok (out ++ [(f0, gold_a)])
                   else Ok out);
          expand_loop G stops pickups rest (out1 ++ segment_rest full gold_b)
      end
  end.

Definition _expand_path (G : Graph) (stops : list Z) (pickups : list PyNum)
    : result Path :=
  expand_loop G stops pickups (seq 0 (length stops - 1)) [].

(** The waypoints [(p[j], 0.0)] for [j] in [range(1, len(p))]. *)
Definition transit (p : list Z) : Path :=
  (λ j : nat, (nth j p 0, zero_float)) <$> seq 1 (length p - 1).

Fixpoint baseline_loop (G : Graph) (idx : list nat) (out : Path)
    : result Path :=
  match idx with
  | [] => Ok out
  | i :: rest =>
      let i := Z.of_nat i in
      match (path_0_i ← shortest_path G 0 i;
             path_i_0 ← shortest_path G i 0;
             Ok (path_0_i, path_i_0)) with
      | Raise NetworkXNoPath | Raise NodeNotFound => baseline_loop G rest out
      | Raise e => Raise e
      | Ok (path_0_i, path_i_0) =>
          d ← nodes_getitem G i;
          gold ← py_float (get_gold d);
          baseline_loop G rest
            (out ++ transit path_0_i ++ [(i, gold)] ++ transit path_i_0)
      end
  end.

Definition _baseline_admissible_path (G : Graph) : result Path :=
  out ← baseline_loop G (seq 1 (number_of_nodes G - 1)) [(0, zero_float)];
  Ok (out ++ [(0, zero_float)]).

(** Lines 114-116 of [run]: make the path end with [(0, 0)]. *)
Definition ensure_terminal (path : Path) : Path :=
  match last path with
  | Some w =>
      if negb (wp_eqb w (0, zero_int)) && negb (wp_eqb w (0, zero_float))
      then path ++ [(0, zero_int)]
      else path
  | None => path
  end.

(** What [run] does once the loop over the trips has ended. *)
Definition run_finish (G : Graph) (path : Path) : result Path :=
  match path with
  | [] => _baseline_admissible_path G
  | _ =>
      let path := ensure_terminal path in
      if is_valid G path then Ok path else _baseline_admissible_path G
  end.

Fixpoint run_loop (G : Graph) (trips : list Trip) (path : Path)
    : result Path :=
  match trips with
  | [] => run_finish G path
  | trip :: rest =>
      segment ← _expand_path G (stops trip) (pickups trip);
      match segment with
      | [] => _baseline_admissible_path G
      | _ => run_loop G rest (path ++ segment)
      end
  end.

(** [run], with the planner's answer [sol.trips] as an argument. *)
Definition run (G : Graph) (trips : list Trip) : result Path :=
  match trips with
  | [] => _baseline_admissible_path G
  | _ => run_loop G trips []
  end.

End Program.

(** ** Definitions for stating the properties

    The notions of the specification ([admissible], [falls_back], the
    sums of quantities) and, for each loop of the program, what one visit
    contributes to the result. *)

(** Python's truth value of a list. *)
Definition truthy {A} (l : list A) : bool :=
  match l with
  | [] => false
  | _ => true
  end.

(** The admissibility condition in the words of the specification: the
    path is not empty, starts at the origin or next to it, and every two
    consecutive waypoints are joined by an edge. *)
Definition admissible (G : Graph) (path : Path) : Prop :=
  path ≠ [] ∧
  (∀ w, head path = Some w → w.1 = 0 ∨ has_edge G 0 w.1 = true) ∧
  (∀ i w1 w2, path !! i = Some w1 → path !! S i = Some w2 →
     has_edge G w1.1 w2.1 = true).

(** A trip's two sequences run in parallel. *)
Definition parallel (t : Trip) : Prop := length (pickups t) = length (stops t).

(** No two consecutive stops of the sequence are the same node. *)
Definition no_repeat (stops : list Z) : Prop :=
  ∀ i a b, stops !! i = Some a → stops !! S i = Some b → a ≠ b.

Definition path_sum (p : Path) : Q :=
  foldr (λ w acc, (num_val w.2 + acc)%Q) 0%Q p.

Definition quantities_sum (l : list PyNum) : Q :=
  foldr (λ g acc, (num_val g + acc)%Q) 0%Q l.

Definition pickups_total (trips : list Trip) : Q :=
  foldr (λ t acc, (quantities_sum (pickups t) + acc)%Q) 0%Q trips.

(** The ints that [float] converts are those below this bound in
    magnitude: halfway between the largest float and 2**1024. *)
Definition float_bound : Z := 2 ^ 1024 - 2 ^ 970.

Definition in_float_range (g : PyNum) : Prop :=
  match g with
  | PyInt z => Z.abs z < float_bound
  | PyFloat _ => True
  end.

(** The gold of every node is a float or an int that [float] converts. *)
Definition gold_in_range (G : Graph) : Prop :=
  ∀ i d, _node G !! i = Some d → in_float_range (get_gold d).

(** A number that [float] leaves as it is: a float, or an int of at most
    53 bits (or 2**53 itself). *)
Definition exact_float (g : PyNum) : Prop :=
  match g with
  | PyInt z => Z.abs z ≤ 2 ^ 53
  | PyFloat _ => True
  end.

Definition gold_exact (G : Graph) : Prop :=
  ∀ i d, _node G !! i = Some d → exact_float (get_gold d).

(** The terminal step in the words of the specification: a waypoint on
    the origin with a quantity equal to zero closes a path, and a path
    that does not end with one gets [(0, 0)] appended. *)
Definition closes (w : Waypoint) : bool :=
  match w with
  | (n, q) => (n =? 0) && Qeq_bool (num_val q) 0
  end.

Definition terminated (p : Path) : Path :=
  match last p with
  | Some w => if closes w then p else p ++ [(0, PyInt 0)]
  | None => [(0, PyInt 0)]
  end.

Section Specification.
Context `{PathOracle}.

(** What one visit of the baseline loop adds for node [i], where the
    gold of [i] converts. *)
Definition round_trip (G : Graph) (i : Z) : Path :=
  match shortest_path G 0 i, shortest_path G i 0, _node G !! i with
  | Ok path_0_i, Ok path_i_0, Some d =>
      transit path_0_i ++ [(i, float_value (get_gold d))] ++ transit path_i_0
  | _, _, _ => []
  end.

(** Whether the visit for node [i] gets past [float]: it does when there
    is no round trip, and when the gold of [i] converts. *)
Definition gold_converts (G : Graph) (i : Z) : bool :=
  match shortest_path G 0 i, shortest_path G i 0, _node G !! i with
  | Ok _, Ok _, Some d =>
      match py_float (get_gold d) with
      | Ok _ => true
      | Raise _ => false
      end
  | _, _, _ => true
  end.

Definition round_trips (G : Graph) (idx : list nat) : Path :=
  concat ((λ i : nat, round_trip G (Z.of_nat i)) <$> idx).

(** Whether the shortest-path query for the pair [(stops[i], stops[i+1])]
    answers with a path. *)
Definition pair_ok (G : Graph) (stops : list Z) (i : nat) : bool :=
  match stops !! i, stops !! S i with
  | Some a, Some b =>
      match shortest_path G a b with
      | Ok _ => true
      | Raise _ => false
      end
  | _, _ => false
  end.

(** What the visit of the pair [i] appends to [out]. *)
Definition segment (G : Graph) (stops : list Z) (pickups : list PyNum)
    (i : nat) : Path :=
  match stops !! i, stops !! S i, pickups !! i, pickups !! S i with
  | Some a, Some b, Some gold_a, Some gold_b =>
      match shortest_path G a b with
      | Ok full =>
          (if (i =? 0)%nat then [(nth 0 full 0, gold_a)] else [])
          ++ segment_rest full gold_b
      | Raise _ => []
      end
  | _, _, _, _ => []
  end.

Definition segments (G : Graph) (stops : list Z) (pickups : list PyNum)
    (idx : list nat) : Path :=
  concat (segment G stops pickups <$> idx).

(** The segment a trip expands to; empty when the expansion fails. *)
Definition expansion (G : Graph) (t : Trip) : Path :=
  match _expand_path G (stops t) (pickups t) with
  | Ok segment => segment
  | Raise _ => []
  end.

Definition expands (G : Graph) (t : Trip) : bool := truthy (expansion G t).

(** The path [run] hands to the checker when every trip expands. *)
Definition assembled (G : Graph) (trips : list Trip) : Path :=
  ensure_terminal (concat (expansion G <$> trips)).

(** The three situations in which the specification has [run] fall back:
    no trips, a trip whose expansion is empty, or an assembled path that
    the checker rejects. *)
Definition falls_back (G : Graph) (trips : list Trip) : Prop :=
  trips = [] ∨
  (∃ t, t ∈ trips ∧ _expand_path G (stops t) (pickups t) = Ok []) ∨
  ((∀ t, t ∈ trips → expands G t = true) ∧
   is_valid G (assembled G trips) = false).

(** The path of the specification's Route Assembler: the expanded trips
    in planner order, closed with [(0, 0)] when needed. *)
Definition route (G : Graph) (trips : list Trip) : Path :=
  terminated (concat (expansion G <$> trips)).

(** The three situations of the specification, with that path. *)
Definition must_fall_back (G : Graph) (trips : list Trip) : Prop :=
  trips = [] ∨
  (∃ t, t ∈ trips ∧ _expand_path G (stops t) (pickups t) = Ok []) ∨
  ((∀ t, t ∈ trips → expands G t = true) ∧
   is_valid G (route G trips) = false).

(** Termination as the specification words it: on a graph that holds
    the origin, [run] returns a path, and the path ends on the origin
    with a quantity equal to zero. *)
Definition termination_claim (G : Graph) (trips : list Trip) : Prop :=
  has_node G 0 = true →
  ∃ (p : Path) (w : Waypoint),
    run G trips = Ok p ∧ last p = Some w ∧ w.1 = 0 ∧ Qeq (num_val w.2) 0.

(** The builder cannot fail, as the specification words it. *)
Definition builder_claim (G : Graph) : Prop :=
  ∃ out, _baseline_admissible_path G = Ok out.

(** Quantity conservation as the specification words it: whenever every
    trip expands, the returned path carries the planner's pickups. *)
Definition conservation_claim (G : Graph) (trips : list Trip) : Prop :=
  (∀ t, t ∈ trips → expands G t = true) →
  ∃ p, run G trips = Ok p ∧ Qeq (path_sum p) (pickups_total trips).

(** The double visit of a round-trip target, for any non-origin node. *)
Definition round_trip_claim (G : Graph) (i : Z) : Prop :=
  i ≠ 0 →
  (∃ p, shortest_path G 0 i = Ok p) → (∃ p, shortest_path G i 0 = Ok p) →
  ∃ pre g post,
    _baseline_admissible_path G = Ok (pre ++ [(i, zero_float); (i, g)] ++ post).

End Specification.

(** ** Building graphs with the networkx calls *)

Definition empty_graph : Graph := {| _node := ∅; _adj := ∅ |}.

(** A node that is not there yet enters with no attributes and no
    neighbours. *)
Definition touch_node (n : Z) (G : Graph) : Graph :=
  match _node G !! n with
  | Some _ => G
  | None => {| _node := <[n := {| gold := None |}]> (_node G);
               _adj := <[n := ∅]> (_adj G) |}
  end.

(** [G.add_node(n, gold=g)] *)
Definition add_node (n : Z) (g : PyNum) (G : Graph) : Graph :=
  let G := touch_node n G in
  {| _node := <[n := {| gold := Some g |}]> (_node G); _adj := _adj G |}.

(** [G.add_edge(u, v, dist=d)] on an undirected graph. *)
Definition add_edge (u v : Z) (d : Q) (G : Graph) : Graph :=
  let G := touch_node v (touch_node u G) in
  {| _node := _node G;
     _adj := alter (insert u d) v (alter (insert v d) u (_adj G)) |}.

(** Only the origin. *)
Definition lonely : Graph := add_node 0 (PyInt 0) empty_graph.

(** Cities 0 and 1, joined by an edge; 10 units of gold at city 1. *)
Definition two_cities : Graph :=
  add_edge 0 1 1%Q (add_node 1 (PyFloat 10%Q) lonely).

(** The line 0 - 1 - 2 of scenario A. *)
Definition line3 : Graph :=
  add_edge 1 2 1%Q (add_node 2 (PyFloat 7%Q) two_cities).

(** Two cities and a third, numbered 3, that no edge reaches. *)
Definition island : Graph := add_node 3 (PyFloat 4%Q) two_cities.

(** Two nodes joined by an edge, the second one numbered 5. *)
Definition far_city : Graph :=
  add_edge 0 5 1%Q (add_node 5 (PyFloat 10%Q) lonely).

(** Two cities joined by an edge; the gold of city 1 is the int 2**1024. *)
Definition overflowing : Graph :=
  add_edge 0 1 1%Q (add_node 1 (PyInt (2 ^ 1024)) lonely).

(** Out to city 1, picking up 3 there, and no way back planned. *)
Definition one_way : Trip :=
  {| stops := [0; 1]; pickups := [zero_float; PyFloat 3%Q] |}.

(** Out to city 1 and back, picking up 3 there. *)
Definition there_and_back : Trip :=
  {| stops := [0; 1; 0];
     pickups := [zero_float; PyFloat 3%Q; zero_float] |}.

(** City 1 is listed twice in a row, with 3 and then 4 to pick up. *)
Definition lingering : Trip :=
  {| stops := [0; 1; 1; 0];
     pickups := [zero_float; PyFloat 3%Q; PyFloat 4%Q; zero_float] |}.

(** A trip to the city that cannot be reached. *)
Definition to_island : Trip :=
  {| stops := [0; 3]; pickups := [zero_float; PyFloat 4%Q] |}.

(** ** Definitions for further properties *)

(** The nodes of a path, in order. *)
Definition nodes_of (p : Path) : list Z := p.*1.

(** The nodes strictly between the two ends of [full]. *)
Definition inner (full : list Z) : list Z :=
  take (length full - 2) (drop 1 full).

(** Every two consecutive nodes of [p] are the same node or joined by an
    edge. *)
Fixpoint soft_linked (G : Graph) (p : list Z) : Prop :=
  match p with
  | u :: (v :: _) as q => (u = v ∨ has_edge G u v = true) ∧ soft_linked G q
  | _ => True
  end.

(** The gold of node [i] as a number; 0 without the attribute or the node. *)
Definition gold_value (G : Graph) (i : Z) : Q :=
  match _node G !! i with
  | Some d => num_val (get_gold d)
  | None => 0%Q
  end.

(** The gold of the nodes that the baseline loop runs over. *)
Definition total_gold (G : Graph) : Q :=
  foldr (λ (i : nat) acc, (gold_value G (Z.of_nat i) + acc)%Q) 0%Q
        (seq 1 (number_of_nodes G - 1)).

Section FurtherDefs.
Context `{PathOracle}.

(** The placement rule for the pair [i]: the inner nodes of its shortest
    path with 0.0, then the stop it ends on with that stop's pickup. *)
Definition placed (G : Graph) (stops : list Z) (pickups : list PyNum)
    (i : nat) : Path :=
  match stops !! i, stops !! S i, pickups !! S i with
  | Some a, Some b, Some gold_b =>
      match shortest_path G a b with
      | Ok full => ((λ n, (n, zero_float)) <$> inner full) ++ [(b, gold_b)]
      | Raise _ => []
      end
  | _, _, _ => []
  end.

(** [solution] of [s343585.py]: the entry point hands its problem to
    [run] and returns what [run] returns. *)
Definition solution (G : Graph) (trips : list Trip) : result Path :=
  run G trips.

End FurtherDefs.

(** Nodes 1 and 2 joined by an edge; the origin is not a node. *)
Definition no_origin : Graph := add_edge 1 2 1%Q empty_graph.

(** A trip with a single stop. *)
Definition stay_home : Trip := {| stops := [0]; pickups := [zero_float] |}.

(** Out to city 1 and back, with a pickup of 5 on the final stop. *)
Definition paid_return : Trip :=
  {| stops := [0; 1; 0];
     pickups := [zero_float; PyFloat 3%Q; PyFloat 5%Q] |}.

(** Three stops and a single pickup. *)
Definition short_pickups : Trip :=
  {| stops := [0; 1; 0]; pickups := [zero_float] |}.

(** ** A reference shortest-path service

    Bellman-Ford relaxation that keeps, for every node reached so far, the
    best distance found and the walk that achieves it. It answers the
    endpoint checks and the [source == target] case the way networkx does. *)
Module Reference.

Definition edges (G : Graph) : list (Z * Z * Q) :=
  '(u, nbrs) ← map_to_list (_adj G);
  '(v, w) ← map_to_list nbrs;
  [(u, v, w)].

Definition relax (T : gmap Z (Q * list Z)) (e : Z * Z * Q)
    : gmap Z (Q * list Z) :=
  let '(u, v, w) := e in
  match T !! u with
  | Some (du, pu) =>
      match T !! v with
      | Some (dv, _) =>
          if Qlt_le_dec (du + w) dv then <[v := ((du + w)%Q, pu ++ [v])]> T
          else T
      | None => <[v := ((du + w)%Q, pu ++ [v])]> T
      end
  | None => T
  end.

Definition round (G : Graph) (T : gmap Z (Q * list Z)) : gmap Z (Q * list Z) :=
  foldl relax T (edges G).

Definition search (G : Graph) (a : Z) : gmap Z (Q * list Z) :=
  Nat.iter (length (edges G)) (round G) {[a := (0%Q, [a])]}.

(** The invariant of the table: every entry holds a walk from the source. *)
Definition sound (G : Graph) (a : Z) (T : gmap Z (Q * list Z)) : Prop :=
  ∀ v d p, T !! v = Some (d, p) → walk G a v p.

Definition ref_shortest_path (G : Graph) (a b : Z) : result (list Z) :=
  if has_node G a && has_node G b then
    if a =? b then Ok [a]
    else match search G a !! b with
         | Some (_, p) => Ok p
         | None => Raise NetworkXNoPath
         end
  else Raise NodeNotFound.

End Reference.

Import Reference.

(** ** Edges and walks *)

Lemma has_edge_spec G u v :
  has_edge G u v = true ↔ ∃ nbrs w, _adj G !! u = Some nbrs ∧ nbrs !! v = Some w.
Proof.
  unfold has_edge. split.
  - destruct (_adj G !! u) as [nbrs|]; [|done].
    destruct (nbrs !! v) as [w|] eqn:E; [|done]. eauto.
  - intros (nbrs & w & -> & ->). done.
Qed.

Lemma elem_of_edges G u v w :
  (u, v, w) ∈ edges G ↔ ∃ nbrs, _adj G !! u = Some nbrs ∧ nbrs !! v = Some w.
Proof.
  unfold edges. rewrite list_elem_of_bind. split.
  - intros ([u' nbrs] & Hin & Hu). apply list_elem_of_bind in Hin.
    destruct Hin as ([v' w'] & Hin & Hv).
    apply list_elem_of_singleton in Hin. simplify_eq.
    apply elem_of_map_to_list in Hu, Hv. eauto.
  - intros (nbrs & Hu & Hv). exists (u, nbrs). split.
    + apply list_elem_of_bind. exists (v, w). split; [set_solver|].
      by apply elem_of_map_to_list.
    + by apply elem_of_map_to_list.
Qed.

Lemma linked_app_edge G p u v :
  linked G p → last p = Some u → has_edge G u v = true → linked G (p ++ [v]).
Proof.
  induction p as [|x [|y q] IH]; simpl; intros Hl Hlast He; [done| |].
  - by simplify_eq.
  - destruct Hl as [Hxy Hl]. split; [done|]. by apply IH.
Qed.

Lemma linked_app_r G l1 l2 : linked G (l1 ++ l2) → linked G l2.
Proof.
  induction l1 as [|x [|y l1] IH]; simpl; [done| |].
  - destruct l2; [done|]. by intros [_ ?].
  - intros [_ Hl]. by apply IH.
Qed.

Lemma walk_refl G a : walk G a a [a].
Proof. by repeat split. Qed.

Lemma walk_snoc G a u v p :
  walk G a u p → has_edge G u v = true → walk G a v (p ++ [v]).
Proof.
  intros (Hh & Hl & Hlk) He. repeat split.
  - destruct p; [done|]. done.
  - by rewrite last_snoc.
  - by eapply linked_app_edge.
Qed.

Lemma walk_cons G a y b q :
  has_edge G a y = true → walk G y b q → walk G a b (a :: q).
Proof.
  intros He (Hh & Hl & Hlk). destruct q as [|y' q]; [done|].
  simpl in Hh. simplify_eq. by repeat split.
Qed.

Lemma walk_length G a b p : walk G a b p → a ≠ b → (2 ≤ length p)%nat.
Proof.
  intros (Hh & Hl & _) Hne. destruct p as [|x [|y p]]; simpl in *; [done| |lia].
  congruence.
Qed.

Lemma walk_NoDup G a b p : walk G a b p → ∃ p', walk G a b p' ∧ NoDup p'.
Proof.
  revert a. induction p as [|x [|y q] IH]; intros a (Hh & Hl & Hlk).
  - done.
  - simpl in *. simplify_eq. eexists [_].
    split; [apply walk_refl|apply NoDup_singleton].
  - simpl in Hh. simplify_eq. destruct Hlk as [He Hlk].
    destruct (IH y) as (q' & Hq' & Hnd); [by repeat split|].
    destruct (decide (a ∈ q')) as [Hin|Hnin].
    + apply list_elem_of_split in Hin as (l1 & l2 & ->).
      exists (a :: l2). destruct Hq' as (_ & Hl' & Hlk'). split.
      * repeat split; [|by eapply linked_app_r].
        apply last_app_Some in Hl' as [?|[[=]%last_None _]]; done.
      * by apply NoDup_app in Hnd as (_ & _ & ?).
    + exists (a :: q'). split; [by eapply walk_cons|]. by apply NoDup_cons.
Qed.

Lemma linked_targets G u q x :
  linked G (u :: q) → x ∈ q → x ∈ (λ e : Z * Z * Q, e.1.2) <$> Reference.edges G.
Proof.
  revert u. induction q as [|y q IH]; intros u Hlk Hin.
  - by apply elem_of_nil in Hin.
  - destruct Hlk as [He Hlk]. apply elem_of_cons in Hin as [->|Hin].
    + apply has_edge_spec in He as (nbrs & w & ? & ?).
      apply list_elem_of_fmap. exists (u, y, w). split; [done|].
      apply elem_of_edges. eauto.
    + by eapply IH.
Qed.

(** ** The reference service meets the contract *)

Section reference.
Context (G : Graph) (a : Z).

Lemma relax_sound T u v w :
  has_edge G u v = true → sound G a T → sound G a (relax T (u, v, w)).
Proof.
  intros He HT x d p. unfold relax.
  destruct (T !! u) as [[du pu]|] eqn:Eu; [|by apply HT].
  assert (walk G a v (pu ++ [v])) by (eapply walk_snoc; [by eapply HT|done]).
  destruct (T !! v) as [[dv pv]|] eqn:Ev;
    [destruct (Qlt_le_dec (du + w) dv); [|by apply HT]|];
    (destruct (decide (x = v)) as [->|];
      [rewrite lookup_insert_eq; by intros [= <- <-]
      |rewrite lookup_insert_ne by done; by apply HT]).
Qed.

Lemma foldl_relax_sound es T :
  Forall (λ e, has_edge G e.1.1 e.1.2 = true) es →
  sound G a T → sound G a (foldl relax T es).
Proof.
  intros Hes. revert T. induction Hes as [|[[u v] w] es He _ IH]; intros T HT;
    [done|]. simpl. apply IH. by apply relax_sound.
Qed.

Lemma edges_has_edge : Forall (λ e, has_edge G e.1.1 e.1.2 = true) (edges G).
Proof.
  apply Forall_forall. intros [[u v] w] Hin. apply elem_of_edges in Hin.
  apply has_edge_spec. destruct Hin as (nbrs & ? & ?). eauto.
Qed.

Lemma round_sound T : sound G a T → sound G a (round G T).
Proof. apply foldl_relax_sound, edges_has_edge. Qed.

Lemma iter_round_sound n T : sound G a T → sound G a (Nat.iter n (round G) T).
Proof. intros HT. induction n; simpl; [done|]. by apply round_sound. Qed.

Lemma search_sound : sound G a (search G a).
Proof.
  apply iter_round_sound. intros v d p Hv.
  apply lookup_singleton_Some in Hv as [<- [= <- <-]]. apply walk_refl.
Qed.

(** Entries are never removed. *)
Lemma relax_keeps T e x : is_Some (T !! x) → is_Some (relax T e !! x).
Proof.
  destruct e as [[u v] w]. intros Hx. unfold relax.
  destruct (T !! u) as [[du pu]|]; [|done].
  destruct (T !! v) as [[dv pv]|];
    [destruct (Qlt_le_dec (du + w) dv); [|done]|];
    (destruct (decide (x = v)) as [->|];
      [by rewrite lookup_insert_eq|by rewrite lookup_insert_ne]).
Qed.

Lemma foldl_relax_keeps es T x :
  is_Some (T !! x) → is_Some (foldl relax T es !! x).
Proof.
  revert T. induction es as [|e es IH]; intros T Hx; [done|].
  simpl. by apply IH, relax_keeps.
Qed.

Lemma relax_reaches T u v w : is_Some (T !! u) → is_Some (relax T (u, v, w) !! v).
Proof.
  intros [[du pu] Hu]. unfold relax. rewrite Hu.
  destruct (T !! v) as [[dv pv]|] eqn:Ev;
    [destruct (Qlt_le_dec (du + w) dv); [|by rewrite Ev]|];
    by rewrite lookup_insert_eq.
Qed.

Lemma foldl_relax_reaches es T u v w :
  (u, v, w) ∈ es → is_Some (T !! u) → is_Some (foldl relax T es !! v).
Proof.
  revert T. induction es as [|e es IH]; intros T Hin Hu.
  - by apply elem_of_nil in Hin.
  - simpl. apply elem_of_cons in Hin as [<-|Hin].
    + by apply foldl_relax_keeps, relax_reaches.
    + apply IH; [done|]. by apply relax_keeps.
Qed.

Lemma round_reaches T u v :
  has_edge G u v = true → is_Some (T !! u) → is_Some (round G T !! v).
Proof.
  intros (nbrs & w & ? & ?)%has_edge_spec. apply (foldl_relax_reaches _ _ _ _ w).
  apply elem_of_edges. eauto.
Qed.

Lemma iter_round_keeps n m T x :
  (n ≤ m)%nat → is_Some (Nat.iter n (round G) T !! x) →
  is_Some (Nat.iter m (round G) T !! x).
Proof.
  induction 1 as [|m _ IH]; [done|]. intros Hx. simpl.
  by apply foldl_relax_keeps, IH.
Qed.

Lemma iter_round_walk p T u v :
  is_Some (T !! u) → walk G u v p →
  is_Some (Nat.iter (length p - 1) (round G) T !! v).
Proof.
  revert T u. induction p as [|x [|y q] IH]; intros T u Hu (Hh & Hl & Hlk).
  - done.
  - simpl in *. by simplify_eq.
  - simpl in Hh. simplify_eq. destruct Hlk as [He Hlk].
    replace (length (u :: y :: q) - 1)%nat with (S (length (y :: q) - 1))
      by (simpl; lia).
    rewrite Nat.iter_succ_r. apply (IH _ y); [by eapply round_reaches|].
    by repeat split.
Qed.

End reference.

Lemma search_complete G a b : connected G a b → is_Some (search G a !! b).
Proof.
  intros [p Hp]. apply walk_NoDup in Hp as (p' & Hp' & Hnd).
  unfold search. eapply iter_round_keeps;
    [|eapply iter_round_walk; [|done]; by rewrite lookup_singleton_eq].
  destruct p' as [|u q]; [simpl; lia|].
  apply NoDup_cons in Hnd as [_ Hnd]. destruct Hp' as (_ & _ & Hlk).
  simpl. rewrite Nat.sub_0_r.
  rewrite <- (length_fmap (λ e : Z * Z * Q, e.1.2) (Reference.edges G)).
  apply submseteq_length, NoDup_submseteq; [done|].
  intros x. by eapply linked_targets.
Qed.

Lemma ref_walk G a b p : ref_shortest_path G a b = Ok p → walk G a b p.
Proof.
  unfold ref_shortest_path. destruct (has_node G a && has_node G b); [|done].
  destruct (Z.eqb_spec a b) as [->|_].
  - intros [= <-]. apply walk_refl.
  - destruct (search G a !! b) as [[d q]|] eqn:E; [|done].
    intros [= <-]. by eapply search_sound.
Qed.

Lemma ref_node_not_found G a b :
  ref_shortest_path G a b = Raise NodeNotFound ↔
  has_node G a = false ∨ has_node G b = false.
Proof.
  unfold ref_shortest_path.
  destruct (has_node G a), (has_node G b); simpl;
    try (split; [by auto|done]).
  split; [|by intros [|]].
  destruct (a =? b); [done|]. by destruct (search G a !! b) as [[]|].
Qed.

Lemma ref_no_path G a b :
  ref_shortest_path G a b = Raise NetworkXNoPath ↔
  has_node G a = true ∧ has_node G b = true ∧ ¬ connected G a b.
Proof.
  unfold ref_shortest_path.
  destruct (has_node G a), (has_node G b); simpl;
    try (split; [done|by intros (? & ? & ?)]).
  destruct (Z.eqb_spec a b) as [->|Hne].
  - split; [done|]. intros (_ & _ & []). exists [b]. apply walk_refl.
  - destruct (search G a !! b) as [[d q]|] eqn:E.
    + split; [done|]. intros (_ & _ & []). exists q. by eapply search_sound.
    + split; [|done]. intros _. repeat split.
      intros Hc%search_complete. rewrite E in Hc. by destruct Hc.
Qed.

Lemma ref_raises G a b e :
  ref_shortest_path G a b = Raise e → e = NetworkXNoPath ∨ e = NodeNotFound.
Proof.
  unfold ref_shortest_path. destruct (has_node G a && has_node G b).
  - destruct (a =? b); [done|].
    destruct (search G a !! b) as [[]|]; [done|]. intros [= <-]. by left.
  - intros [= <-]. by right.
Qed.

#[export] Instance reference_oracle : PathOracle := {|
  shortest_path := ref_shortest_path;
  sp_walk := ref_walk;
  sp_node_not_found := ref_node_not_found;
  sp_no_path := ref_no_path;
  sp_raises := ref_raises
|}.

(** ** The admissibility checker *)

Lemma forallb_consecutive {A} (f : A * A → bool) (l : list A) :
  forallb f (zip l (tail l)) = true ↔
  ∀ i x y, l !! i = Some x → l !! S i = Some y → f (x, y) = true.
Proof.
  induction l as [|x [|y l] IH].
  - split; [|done]. by intros _ i x y ?.
  - split; [|done]. intros _ [|i] x' y' ? ?; done.
  - change (zip (x :: y :: l) (tail (x :: y :: l)))
      with ((x, y) :: zip (y :: l) (tail (y :: l))).
    simpl forallb. rewrite andb_true_iff, IH. split.
    + intros [Hxy Hl] [|i] x' y' Hx Hy.
      * simpl in *. by simplify_eq.
      * by apply (Hl i).
    + intros Hl. split; [by apply (Hl 0%nat)|].
      intros i x' y' ? ?. by apply (Hl (S i)).
Qed.

Lemma forallb_false {A} (f : A → bool) l :
  forallb f l = false ↔ ∃ x, x ∈ l ∧ f x = false.
Proof.
  induction l as [|x l IH]; simpl.
  - split; [done|]. by intros (? & ?%elem_of_nil & _).
  - rewrite andb_false_iff, IH. split.
    + intros [?|(y & ? & ?)]; [exists x|exists y]; split; auto; by constructor.
    + intros (y & [->|?]%elem_of_cons & ?); [by left|right; by exists y].
Qed.

(** An accepted path has an edge under every two consecutive waypoints. *)
Lemma is_valid_linked G path i w1 w2 :
  is_valid G path = true →
  path !! i = Some w1 → path !! S i = Some w2 → has_edge G w1.1 w2.1 = true.
Proof.
  destruct path as [|[n0 q0] path]; [done|]. unfold is_valid.
  destruct (negb (n0 =? 0) && negb (has_edge G 0 n0)); [done|].
  rewrite (forallb_consecutive
    (λ '((n1, _), (n2, _)), has_edge G n1 n2) ((n0, q0) :: path)).
  intros Hl H1 H2. destruct w1 as [n1 q1], w2 as [n2 q2].
  apply (Hl i _ _ H1 H2).
Qed.

(** C8. [is_valid] answers true exactly for the admissible paths: not
    empty, first node the origin or a neighbour of it, and a graph edge
    between every two consecutive waypoints. On the empty path it answers
    false, one missing edge makes the answer false, and as a total boolean
    function it has no other outcome on absent nodes or edges. *)
Theorem is_valid_iff_admissible (G : Graph) (path : Path) :
  (is_valid G path = true ↔ admissible G path) ∧
  (is_valid G path = false ↔ ¬ admissible G path) ∧
  is_valid G [] = false.
Proof.
  assert (is_valid G path = true ↔ admissible G path) as Hiff.
  { unfold admissible. destruct path as [|[n0 q0] path].
    - split; [done|]. by intros [? _].
    - unfold is_valid.
      destruct (negb (n0 =? 0) && negb (has_edge G 0 n0)) eqn:E.
      + split; [done|]. intros (_ & Hh & _).
        apply andb_true_iff in E as [E1 E2].
        apply negb_true_iff in E1, E2. apply Z.eqb_neq in E1.
        destruct (Hh (n0, q0)) as [?|?]; [done| |]; simpl in *; congruence.
      + rewrite (forallb_consecutive
          (λ '((n1, _), (n2, _)), has_edge G n1 n2) ((n0, q0) :: path)).
        split.
        * intros Hl. split; [done|]. split.
          -- intros w [= <-]. simpl.
             apply andb_false_iff in E as [E|E]; apply negb_false_iff in E.
             ++ left. by apply Z.eqb_eq.
             ++ by right.
          -- intros i [n1 q1] [n2 q2] H1 H2. by apply (Hl i _ _ H1 H2).
        * intros (_ & _ & Hl) i [n1 q1] [n2 q2] H1 H2. apply (Hl i _ _ H1 H2). }
  split; [done|]. split; [|done].
  rewrite <- Hiff. by destruct (is_valid G path).
Qed.

(** ** Turning an int into a float *)

Lemma float_of_int_in_range z :
  Z.abs z < float_bound → ∃ f, float_of_int z = Ok f.
Proof.
  intros Hz. unfold float_of_int.
  set (a := Z.abs z) in *. set (bits := Z.log2 a + 1).
  destruct (bits <=? 53) eqn:Eb; [by eexists|].
  apply Z.leb_gt in Eb.
  set (e := bits - 53). set (q := a / 2 ^ e). set (r := a mod 2 ^ e).
  set (q' := if (2 ^ (e - 1) <? r) || ((r =? 2 ^ (e - 1)) && Z.odd q)
             then q + 1 else q).
  destruct (2 ^ 1024 <=? q' * 2 ^ e) eqn:Ev; [|by eexists].
  exfalso. apply Z.leb_le in Ev.
  assert (0 < a) as Ha.
  { destruct (decide (a = 0)) as [E0|]; [|lia].
    unfold bits in Eb. rewrite E0 in Eb. simpl in Eb. lia. }
  assert (1 ≤ e) as He by (unfold e; lia).
  assert (e ≤ 971) as He'.
  { assert (Z.log2 a < 1024); [|unfold e, bits; lia].
    apply Z.log2_lt_pow2; [done|]. unfold float_bound in Hz.
    assert (0 < 2 ^ 970) by (apply Z.pow_pos_nonneg; lia). lia. }
  assert (0 < 2 ^ e) as Hpe by (apply Z.pow_pos_nonneg; lia).
  assert (2 ^ e = 2 * 2 ^ (e - 1)) as Hdouble.
  { rewrite <- Z.pow_succ_r by lia. f_equal. lia. }
  assert (2 ^ (e - 1) ≤ 2 ^ 970) as Hhalf by (apply Z.pow_le_mono_r; lia).
  pose proof (Z.div_mod a (2 ^ e) ltac:(lia)) as Hdm. fold q r in Hdm.
  pose proof (Z.mod_pos_bound a (2 ^ e) Hpe) as Hr. fold r in Hr.
  unfold float_bound in Hz.
  assert (q' * 2 ^ e ≤ a + 2 ^ (e - 1)) as Hv; [|lia].
  unfold q'.
  destruct ((2 ^ (e - 1) <? r) || ((r =? 2 ^ (e - 1)) && Z.odd q)) eqn:Eup.
  - assert (2 ^ (e - 1) ≤ r).
    { apply orb_true_iff in Eup
        as [?%Z.ltb_lt|[?%Z.eqb_eq _]%andb_true_iff]; lia. }
    nia.
  - assert (0 ≤ 2 ^ (e - 1)) by lia. nia.
Qed.

Lemma float_of_int_exact z :
  Z.abs z ≤ 2 ^ 53 → float_of_int z = Ok (PyFloat (inject_Z z)).
Proof.
  intros Hz. destruct (decide (Z.abs z = 2 ^ 53)) as [Ha|Ha].
  - assert (z = 2 ^ 53 ∨ z = - 2 ^ 53) as [-> | ->] by lia; by vm_compute.
  - unfold float_of_int.
    destruct (Z.log2 (Z.abs z) + 1 <=? 53) eqn:Eb; [done|].
    apply Z.leb_gt in Eb. exfalso.
    destruct (decide (Z.abs z = 0)) as [E0|];
      [rewrite E0 in Eb; simpl in Eb; lia|].
    assert (Z.log2 (Z.abs z) < 53); [|lia].
    apply Z.log2_lt_pow2; lia.
Qed.

Lemma py_float_raises g e : py_float g = Raise e → e = OverflowError.
Proof.
  destruct g as [z|q]; [|done]. unfold py_float, float_of_int.
  destruct (_ <=? 53); [done|]. destruct (2 ^ 1024 <=? _); [|done].
  by intros [= <-].
Qed.

Lemma py_float_in_range g : in_float_range g → ∃ f, py_float g = Ok f.
Proof.
  destruct g as [z|q]; [apply float_of_int_in_range|]. by eexists.
Qed.

Lemma py_float_exact g :
  exact_float g → ∃ f, py_float g = Ok f ∧ Qeq (num_val f) (num_val g).
Proof.
  destruct g as [z|q]; simpl.
  - intros Hz. rewrite float_of_int_exact by done. by eexists.
  - intros _. by eexists.
Qed.

Lemma py_float_value g f : py_float g = Ok f → float_value g = f.
Proof. intros E. unfold float_value. by rewrite E. Qed.

(** ** Properties of the program, for any shortest-path service *)

Section Properties.
Context `{PathOracle}.

(** *** The baseline builder *)

Lemma sp_ok_nodes G a b p :
  shortest_path G a b = Ok p → has_node G a = true ∧ has_node G b = true.
Proof.
  intros Hp. destruct (has_node G a) eqn:Ea, (has_node G b) eqn:Eb; try done;
    assert (shortest_path G a b = Raise NodeNotFound) as Hr
      by (apply sp_node_not_found; auto); congruence.
Qed.

Lemma sp_ok_nonempty G a b p : shortest_path G a b = Ok p → p ≠ [].
Proof. intros (Hh & _)%sp_walk ->. done. Qed.

Lemma sp_raise_iff G a b :
  (∃ e, shortest_path G a b = Raise e) ↔
  has_node G a = false ∨ has_node G b = false ∨ ¬ connected G a b.
Proof.
  split.
  - intros [e He]. destruct (sp_raises _ _ _ _ He) as [-> | ->].
    + apply sp_no_path in He as (_ & _ & ?). auto.
    + apply sp_node_not_found in He as [?|?]; auto.
  - intros Hc. destruct (shortest_path G a b) as [p|e] eqn:E; [|by eexists].
    destruct (sp_ok_nodes _ _ _ _ E) as [Ha Hb]. apply sp_walk in E.
    destruct Hc as [?|[?|[]]]; [congruence..|by exists p].
Qed.

Lemma baseline_loop_eq G idx out :
  baseline_loop G idx out =
  if forallb (λ i : nat, gold_converts G (Z.of_nat i)) idx
  then Ok (out ++ round_trips G idx)
  else Raise OverflowError.
Proof.
  revert out. induction idx as [|i idx IH]; intros out.
  - unfold round_trips. simpl. by rewrite app_nil_r.
  - unfold round_trips. simpl. fold (round_trips G idx).
    unfold round_trip, gold_converts at 1.
    destruct (shortest_path G 0 (Z.of_nat i)) as [p1|e1] eqn:E1; simpl.
    + destruct (shortest_path G (Z.of_nat i) 0) as [p2|e2] eqn:E2; simpl.
      * apply sp_ok_nodes in E1 as [_ Hi]. unfold has_node in Hi.
        unfold nodes_getitem.
        destruct (_node G !! Z.of_nat i) as [d|]; [|done]. simpl.
        destruct (py_float (get_gold d)) as [f|e] eqn:Ef; simpl.
        -- rewrite (py_float_value _ f Ef), IH.
           destruct (forallb _ idx); [|done]. by rewrite <- !app_assoc.
        -- by rewrite (py_float_raises _ _ Ef).
      * apply sp_raises in E2 as [->| ->]; by rewrite IH.
    + apply sp_raises in E1 as [->| ->]; by rewrite IH.
Qed.

Lemma baseline_eq G :
  _baseline_admissible_path G =
  if forallb (λ i : nat, gold_converts G (Z.of_nat i))
       (seq 1 (number_of_nodes G - 1))
  then Ok ([(0, zero_float)] ++ round_trips G (seq 1 (number_of_nodes G - 1))
             ++ [(0, zero_float)])
  else Raise OverflowError.
Proof.
  unfold _baseline_admissible_path. rewrite baseline_loop_eq.
  by destruct (forallb _ _).
Qed.

(** The path the builder returns, when it returns one. *)
Lemma baseline_inv G p :
  _baseline_admissible_path G = Ok p →
  p = [(0, zero_float)] ++ round_trips G (seq 1 (number_of_nodes G - 1))
        ++ [(0, zero_float)].
Proof.
  rewrite baseline_eq. destruct (forallb _ _); [|done]. by intros [= <-].
Qed.

Lemma gold_converts_in_range G i : gold_in_range G → gold_converts G i = true.
Proof.
  intros Hg. unfold gold_converts.
  destruct (shortest_path G 0 i); [|done].
  destruct (shortest_path G i 0); [|done].
  destruct (_node G !! i) as [d|] eqn:Ed; [|done].
  by destruct (py_float_in_range _ (Hg i d Ed)) as [f ->].
Qed.

(** With every gold in the range of [float] the builder returns. *)
Lemma baseline_ok G :
  gold_in_range G →
  _baseline_admissible_path G =
  Ok ([(0, zero_float)] ++ round_trips G (seq 1 (number_of_nodes G - 1))
        ++ [(0, zero_float)]).
Proof.
  intros Hg. rewrite baseline_eq.
  assert (forallb (λ i : nat, gold_converts G (Z.of_nat i))
            (seq 1 (number_of_nodes G - 1)) = true) as ->; [|done].
  apply forallb_forall. intros i _. by apply gold_converts_in_range.
Qed.

Lemma round_trip_skip G i :
  ¬ connected G 0 i ∨ ¬ connected G i 0 →
  round_trip G i = [] ∧ gold_converts G i = true.
Proof.
  intros Hnc. unfold round_trip, gold_converts.
  destruct (shortest_path G 0 i) as [p1|] eqn:E1; [|done].
  destruct (shortest_path G i 0) as [p2|] eqn:E2; [|done].
  apply sp_walk in E1, E2. destruct Hnc as [[]|[]]; by eexists.
Qed.

Lemma baseline_loop_skip G i rest out :
  ¬ connected G 0 (Z.of_nat i) ∨ ¬ connected G (Z.of_nat i) 0 →
  baseline_loop G (i :: rest) out = baseline_loop G rest out.
Proof.
  intros [Hr Hc]%round_trip_skip. rewrite !baseline_loop_eq.
  unfold round_trips. simpl. by rewrite Hr, Hc.
Qed.

Lemma baseline_last G p :
  _baseline_admissible_path G = Ok p → last p = Some (0, zero_float).
Proof. intros ->%baseline_inv. by rewrite !app_assoc, last_snoc. Qed.

Lemma transit_last p b :
  (2 ≤ length p)%nat → last p = Some b →
  ∃ pre, transit p = pre ++ [(b, zero_float)].
Proof.
  intros Hlen Hl. unfold transit.
  destruct (length p) as [|[|n]] eqn:En; [lia..|].
  replace (S (S n) - 1)%nat with (S n) by lia.
  rewrite seq_S, fmap_snoc. eexists. f_equal. f_equal. f_equal.
  rewrite last_lookup, En in Hl. by apply nth_lookup_Some.
Qed.

Lemma round_trips_app G l1 l2 :
  round_trips G (l1 ++ l2) = round_trips G l1 ++ round_trips G l2.
Proof. unfold round_trips. by rewrite fmap_app, concat_app. Qed.

Lemma round_trip_last G i out :
  (∃ w, last out = Some w ∧ w.1 = 0) →
  ∃ w, last (out ++ round_trip G i) = Some w ∧ w.1 = 0.
Proof.
  intros Hout. unfold round_trip.
  destruct (shortest_path G 0 i) as [p1|] eqn:E1; [|by rewrite app_nil_r].
  destruct (shortest_path G i 0) as [p2|] eqn:E2; [|by rewrite app_nil_r].
  destruct (_node G !! i) as [d|]; [|by rewrite app_nil_r].
  apply sp_walk in E2 as (Hh & Hl & _).
  destruct p2 as [|x [|y p2]]; [done| |].
  - simpl in *. simplify_eq. eexists.
    change (transit [0]) with (@nil Waypoint).
    rewrite (app_assoc _ _ [_]), last_snoc. by split.
  - destruct (transit_last (x :: y :: p2) 0) as [pre ->]; [simpl; lia|done|].
    eexists. rewrite !app_assoc, last_snoc. by split.
Qed.

Lemma round_trips_last G idx out :
  (∃ w, last out = Some w ∧ w.1 = 0) →
  ∃ w, last (out ++ round_trips G idx) = Some w ∧ w.1 = 0.
Proof.
  revert out. induction idx as [|i idx IH]; intros out Hout.
  - unfold round_trips. simpl. by rewrite app_nil_r.
  - change (i :: idx) with ([i] ++ idx).
    rewrite round_trips_app, app_assoc. apply IH.
    unfold round_trips. simpl. rewrite app_nil_r. by apply round_trip_last.
Qed.

(** Without a self-loop at the origin the baseline path is never
    admissible: its last two waypoints both sit on node 0. *)
Lemma baseline_not_admissible G p :
  has_edge G 0 0 = false →
  _baseline_admissible_path G = Ok p → is_valid G p = false.
Proof.
  intros Hloop Hb.
  destruct (round_trips_last G (seq 1 (number_of_nodes G - 1))
              [(0, zero_float)]) as (w & Hw & Hw0); [by eexists|].
  apply last_Some in Hw as [l Hl].
  assert (p = l ++ [w; (0, zero_float)]) as ->.
  { apply baseline_inv in Hb as ->.
    transitivity (([(0, zero_float)]
      ++ round_trips G (seq 1 (number_of_nodes G - 1))) ++ [(0, zero_float)]);
      [done|].
    rewrite Hl. by rewrite <- app_assoc. }
  apply not_true_is_false. intros Hval.
  assert (has_edge G w.1 0 = true) as He.
  { apply (is_valid_linked G _ (length l) w (0, zero_float) Hval).
    - by apply list_lookup_middle.
    - rewrite (lookup_app_r l) by lia.
      by replace (S (length l) - length l)%nat with 1%nat by lia. }
  by rewrite Hw0, Hloop in He.
Qed.

(** *** The path expander *)

Lemma index_lt {A} (l : list A) i : (i < length l)%nat → ∃ x, l !! i = Some x ∧ index l i = Ok x.
Proof.
  intros Hi. destruct (lookup_lt_is_Some_2 l i Hi) as [x Hx].
  exists x. unfold index. by rewrite Hx.
Qed.

Lemma pair_ok_false G stops i a b :
  stops !! i = Some a → stops !! S i = Some b →
  pair_ok G stops i = false ↔ ∃ e, shortest_path G a b = Raise e.
Proof.
  intros Ha Hb. unfold pair_ok. rewrite Ha, Hb.
  destruct (shortest_path G a b); split; try done; [by intros [? ?]|by eexists].
Qed.

Lemma expand_loop_eq G stops pickups idx out :
  (∀ i, i ∈ idx → (S i < length stops)%nat ∧ (S i < length pickups)%nat) →
  expand_loop G stops pickups idx out =
  if forallb (pair_ok G stops) idx
  then Ok (out ++ segments G stops pickups idx)
  else Ok [].
Proof.
  revert out. induction idx as [|i idx IH]; intros out Hidx.
  - unfold segments. simpl. by rewrite app_nil_r.
  - destruct (Hidx i) as [Hs Hp]; [by left|].
    destruct (index_lt stops i) as (a & Ha & Hia); [lia|].
    destruct (index_lt stops (S i)) as (b & Hb & Hib); [lia|].
    destruct (index_lt pickups i) as (ga & Hga & Higa); [lia|].
    destruct (index_lt pickups (S i)) as (gb & Hgb & Higb); [lia|].
    unfold segments. simpl. fold (segments G stops pickups idx).
    unfold pair_ok at 1, segment at 1. rewrite Nat.add_1_r.
    rewrite Hia, Hib, Higa, Higb, Ha, Hb, Hga, Hgb. simpl.
    destruct (shortest_path G a b) as [full|e] eqn:E.
    + assert (index full 0 = Ok (nth 0 full 0)) as Hf0.
      { apply sp_ok_nonempty in E. by destruct full. }
      simpl. destruct (i =? 0)%nat; simpl; [rewrite Hf0; simpl|];
        (rewrite IH by (intros; apply Hidx; by right));
        destruct (forallb _ idx); [|done| |done]; by rewrite <- !app_assoc.
    + by apply sp_raises in E as [->| ->].
Qed.

Lemma expand_path_eq G stops pickups :
  (length stops ≤ length pickups)%nat →
  _expand_path G stops pickups =
  if forallb (pair_ok G stops) (seq 0 (length stops - 1))
  then Ok (segments G stops pickups (seq 0 (length stops - 1)))
  else Ok [].
Proof.
  intros Hlen. unfold _expand_path. rewrite expand_loop_eq; [done|].
  intros i Hi%elem_of_seq. lia.
Qed.

Lemma expand_path_ok G t :
  parallel t → _expand_path G (stops t) (pickups t) = Ok (expansion G t).
Proof.
  intros Hp. unfold expansion. rewrite expand_path_eq by (rewrite Hp; lia).
  by destruct (forallb _ _).
Qed.

Lemma expands_false G t :
  parallel t → expands G t = false ↔ _expand_path G (stops t) (pickups t) = Ok [].
Proof.
  intros Hp. rewrite expand_path_ok by done. unfold expands.
  destruct (expansion G t); split; done.
Qed.

(** Where a segment's shortest path has at least two nodes, its inner
    nodes carry 0.0 and its last node carries the pickup of the stop the
    segment ends on. *)
Lemma fmap_seq_lookup {B} (f : nat → B) (h : Z → B) (l : list Z) s :
  (∀ i x, l !! i = Some x → f (s + i)%nat = h x) →
  f <$> seq s (length l) = h <$> l.
Proof.
  revert s. induction l as [|x l IH]; intros s Hf; [done|]. simpl. f_equal.
  - rewrite <- (Hf 0%nat x) by done. f_equal. lia.
  - apply IH. intros i y Hy. rewrite <- (Hf (S i) y) by done. f_equal. lia.
Qed.

Lemma segment_rest_placement a mid b g :
  segment_rest (a :: mid ++ [b]) g =
  ((λ n, (n, zero_float)) <$> mid) ++ [(b, g)].
Proof.
  unfold segment_rest.
  replace (length (a :: mid ++ [b]) - 1)%nat with (S (length mid))
    by (simpl; rewrite length_app; simpl; lia).
  rewrite seq_S, fmap_snoc. f_equal.
  - apply fmap_seq_lookup. intros i x Hx. simpl.
    pose proof (lookup_lt_Some _ _ _ Hx) as Hi.
    destruct (Nat.eqb_spec i (length mid)) as [?|_]; [lia|]. f_equal.
    apply nth_lookup_Some. by rewrite lookup_app_l.
  - simpl. rewrite Nat.eqb_refl. do 2 f_equal.
    apply nth_lookup_Some. by apply list_lookup_middle.
Qed.

(** Where it has a single node, which is what the shortest-path service
    answers for two equal stops, the segment adds nothing and the pickup
    [g] is on no waypoint. *)
Lemma segment_rest_single a g : segment_rest [a] g = [].
Proof. done. Qed.

(** *** The route assembler *)

Lemma run_loop_eq G trips path :
  Forall parallel trips →
  run_loop G trips path =
  if forallb (expands G) trips
  then run_finish G (path ++ concat (expansion G <$> trips))
  else _baseline_admissible_path G.
Proof.
  intros Hpar. revert path.
  induction Hpar as [|t trips Ht _ IH]; intros path; simpl.
  - by rewrite app_nil_r.
  - rewrite expand_path_ok by done. simpl. unfold expands at 1.
    destruct (expansion G t) as [|w seg] eqn:E; [done|]. simpl.
    rewrite IH. simpl. by rewrite <- app_assoc.
Qed.

Lemma run_finish_eq G path :
  path ≠ [] →
  run_finish G path =
  if is_valid G (ensure_terminal path) then Ok (ensure_terminal path)
  else _baseline_admissible_path G.
Proof. by destruct path. Qed.

Lemma expansions_nonempty G trips :
  trips ≠ [] → forallb (expands G) trips = true →
  concat (expansion G <$> trips) ≠ [].
Proof.
  destruct trips as [|t trips]; [done|]. intros _. simpl.
  unfold expands. by destruct (expansion G t).
Qed.

Lemma run_eq G trips :
  Forall parallel trips →
  run G trips =
  if truthy trips && forallb (expands G) trips
     && is_valid G (assembled G trips)
  then Ok (assembled G trips)
  else _baseline_admissible_path G.
Proof.
  intros Hpar. destruct trips as [|t trips]; [done|].
  unfold run. rewrite run_loop_eq by done.
  destruct (forallb _ _) eqn:E; [|done].
  rewrite run_finish_eq by by apply expansions_nonempty.
  done.
Qed.

Lemma wp_eqb_zero w : wp_eqb w (0, zero_float) = wp_eqb w (0, zero_int).
Proof. done. Qed.

Lemma ensure_terminal_last path :
  path ≠ [] →
  ∃ w, last (ensure_terminal path) = Some w ∧ wp_eqb w (0, zero_int) = true.
Proof.
  intros Hne. apply last_is_Some in Hne as [w Hw].
  unfold ensure_terminal. rewrite Hw, wp_eqb_zero.
  destruct (wp_eqb w (0, zero_int)) eqn:E; simpl.
  - by exists w.
  - exists (0, zero_int). by rewrite last_snoc.
Qed.

(** *** Quantities *)

Lemma path_sum_app p q : (path_sum (p ++ q) == path_sum p + path_sum q)%Q.
Proof.
  induction p as [|w p IH]; simpl; [ring|]. rewrite IH. ring.
Qed.

Lemma segment_rest_seq_sum full g L s m :
  Qeq (path_sum ((λ j : nat,
         (nth j full 0, if (j =? L)%nat then g else zero_float)) <$> seq s m))
      (if bool_decide (s ≤ L < s + m)%nat then num_val g else 0%Q).
Proof.
  revert s. induction m as [|m IH]; intros s; simpl.
  - rewrite bool_decide_eq_false_2 by lia. reflexivity.
  - rewrite IH. destruct (Nat.eqb_spec s L) as [->|Hne]; simpl.
    + rewrite bool_decide_eq_false_2, bool_decide_eq_true_2 by lia. ring.
    + destruct (decide (S s ≤ L < S s + m)%nat).
      * rewrite !bool_decide_eq_true_2 by lia. ring.
      * rewrite !bool_decide_eq_false_2 by lia. ring.
Qed.

Lemma segment_rest_sum full g :
  (2 ≤ length full)%nat → (path_sum (segment_rest full g) == num_val g)%Q.
Proof.
  intros Hlen. unfold segment_rest. rewrite segment_rest_seq_sum.
  rewrite bool_decide_eq_true_2 by lia. reflexivity.
Qed.

Lemma segment_sum G stops pickups i ga gb :
  no_repeat stops → pair_ok G stops i = true →
  pickups !! i = Some ga → pickups !! S i = Some gb →
  Qeq (path_sum (segment G stops pickups i))
      ((if (i =? 0)%nat then num_val ga else 0%Q) + num_val gb)%Q.
Proof.
  intros Hnr Hok Hga Hgb. unfold pair_ok in Hok. unfold segment.
  rewrite Hga, Hgb.
  destruct (stops !! i) as [a|] eqn:Ha; [|done].
  destruct (stops !! S i) as [b|] eqn:Hb; [|done].
  destruct (shortest_path G a b) as [full|] eqn:E; [|done].
  rewrite path_sum_app, segment_rest_sum.
  - destruct (i =? 0)%nat; simpl; ring.
  - eapply walk_length; [by apply sp_walk|]. by eapply Hnr.
Qed.

Lemma segments_cons G stops pickups i idx :
  segments G stops pickups (i :: idx) =
  segment G stops pickups i ++ segments G stops pickups idx.
Proof. done. Qed.

Lemma segments_sum G stops pickups m k :
  no_repeat stops → (0 < k)%nat → (S k + m ≤ length pickups)%nat →
  (∀ i, (k ≤ i < k + m)%nat → pair_ok G stops i = true) →
  Qeq (path_sum (segments G stops pickups (seq k m)))
      (quantities_sum (take m (drop (S k) pickups))).
Proof.
  intros Hnr. revert k. induction m as [|m IH]; intros k Hk Hlen Hok.
  - reflexivity.
  - destruct (index_lt pickups k) as (ga & Hga & _); [lia|].
    destruct (index_lt pickups (S k)) as (gb & Hgb & _); [lia|].
    cbn [seq]. rewrite segments_cons.
    rewrite path_sum_app, (segment_sum _ _ _ _ ga gb), IH; try done; try lia.
    + rewrite (drop_S _ gb (S k)) by done. simpl.
      destruct (Nat.eqb_spec k 0); [lia|]. ring.
    + intros i Hi. apply Hok. lia.
    + apply Hok. lia.
Qed.

Lemma expansion_sum G t :
  parallel t → no_repeat (stops t) → expands G t = true →
  Qeq (path_sum (expansion G t)) (quantities_sum (pickups t)).
Proof.
  unfold parallel, expands, expansion. intros Hpar Hnr.
  rewrite expand_path_eq by lia.
  destruct (forallb _ _) eqn:E; [|done]. intros Hne.
  rewrite forallb_forall in E.
  assert (∀ i, (i < length (stops t) - 1)%nat → pair_ok G (stops t) i = true)
    as Hok by (intros i Hi; apply E, list_elem_of_In, elem_of_seq; lia).
  destruct (length (stops t)) as [|[|n]] eqn:En; [done..|].
  replace (S (S n) - 1)%nat with (S n) in * by lia.
  destruct (pickups t) as [|ga [|gb gs]] eqn:Ep; simpl in Hpar; [lia..|].
  cbn [seq]. rewrite segments_cons.
  rewrite path_sum_app, (segment_sum _ _ _ _ ga gb), segments_sum;
    try done; try (simpl; lia).
  - simpl. rewrite drop_0, take_ge by lia. ring.
  - intros i Hi. apply Hok. lia.
  - apply Hok. lia.
Qed.

Lemma expansions_sum G trips :
  Forall parallel trips → Forall (λ t, no_repeat (stops t)) trips →
  forallb (expands G) trips = true →
  Qeq (path_sum (concat (expansion G <$> trips))) (pickups_total trips).
Proof.
  induction 1 as [|t trips Ht _ IH]; intros Hnr Hexp; [reflexivity|].
  apply Forall_cons in Hnr as [Hnt Hnr]. simpl in *.
  apply andb_true_iff in Hexp as [Het Hexp].
  rewrite path_sum_app, expansion_sum, IH by done. reflexivity.
Qed.

Lemma ensure_terminal_sum p : Qeq (path_sum (ensure_terminal p)) (path_sum p).
Proof.
  unfold ensure_terminal. destruct (last p) as [w|]; [|reflexivity].
  destruct (_ && _); [|reflexivity]. rewrite path_sum_app. simpl. ring.
Qed.

(** *** The claims *)

Lemma closes_spec (w : Waypoint) :
  closes w = true ↔ w.1 = 0 ∧ Qeq (num_val w.2) 0.
Proof.
  destruct w as [n q]. unfold closes. simpl.
  rewrite andb_true_iff, Z.eqb_eq, Qeq_bool_iff. done.
Qed.

Lemma closes_wp_eqb (w : Waypoint) : wp_eqb w (0, zero_int) = closes w.
Proof. by destruct w. Qed.

(** On a path that is not empty the terminal step of [run] is the
    terminal step of the specification. *)
Lemma ensure_terminal_terminated (p : Path) :
  p ≠ [] → ensure_terminal p = terminated p.
Proof.
  intros Hne. apply last_is_Some in Hne as [w Hw].
  unfold ensure_terminal, terminated.
  rewrite Hw, wp_eqb_zero, closes_wp_eqb. by destruct (closes w).
Qed.

Lemma assembled_route G trips :
  trips ≠ [] → forallb (expands G) trips = true →
  assembled G trips = route G trips.
Proof.
  intros Hne Hexp. apply ensure_terminal_terminated.
  by apply expansions_nonempty.
Qed.

(** C5, as amended. Whatever path [run] returns ends on the origin with a
    quantity equal to zero, an integer or a float one; [run] does return
    a path when every gold is a float or an int in the range of [float];
    and when every trip expands and the concatenation does not end with
    such a waypoint, the path that [run] validates and returns is the
    concatenation with [(0, 0)] appended. *)
Theorem run_ends_at_origin G trips :
  Forall parallel trips →
  (∀ p, run G trips = Ok p →
     ∃ w : Waypoint, last p = Some w ∧ w.1 = 0 ∧ Qeq (num_val w.2) 0) ∧
  (gold_in_range G → ∃ p, run G trips = Ok p) ∧
  (∀ w : Waypoint, (∀ t, t ∈ trips → expands G t = true) →
     last (concat (expansion G <$> trips)) = Some w →
     ¬ (w.1 = 0 ∧ Qeq (num_val w.2) 0) →
     run G trips =
       if is_valid G (concat (expansion G <$> trips) ++ [(0, PyInt 0)])
       then Ok (concat (expansion G <$> trips) ++ [(0, PyInt 0)])
       else _baseline_admissible_path G).
Proof.
  intros Hpar. rewrite run_eq by done. split; [|split].
  - intros p Hp.
    destruct (truthy trips && forallb (expands G) trips
              && is_valid G (assembled G trips)) eqn:E.
    + injection Hp as <-.
      apply andb_true_iff in E as [[Ht He]%andb_true_iff _].
      destruct (ensure_terminal_last (concat (expansion G <$> trips)))
        as (w & Hw & Hz); [apply expansions_nonempty; by destruct trips|].
      exists w. split; [done|]. by apply closes_spec; rewrite <- closes_wp_eqb.
    + apply baseline_last in Hp. exists (0, zero_float). by split.
  - intros Hg. destruct (_ && _); [by eexists|].
    eexists. by apply baseline_ok.
  - intros w Hexp Hl Hw.
    assert (forallb (expands G) trips = true) as ->.
    { apply forallb_forall. intros t Ht. by apply Hexp, list_elem_of_In. }
    assert (truthy trips = true) as -> by by destruct trips.
    assert (assembled G trips
            = concat (expansion G <$> trips) ++ [(0, PyInt 0)]) as ->; [|done].
    unfold assembled, ensure_terminal. rewrite Hl, wp_eqb_zero, closes_wp_eqb.
    destruct (closes w) eqn:Ec; [|done]. by apply closes_spec in Ec.
Qed.

Lemma falls_back_iff G trips :
  Forall parallel trips →
  falls_back G trips ↔
  truthy trips && forallb (expands G) trips
    && is_valid G (assembled G trips) = false.
Proof.
  intros Hpar. destruct trips as [|t0 trips'].
  { split; [done|]. by left. }
  set (trips := t0 :: trips') in *. simpl truthy. cbn [andb].
  destruct (forallb (expands G) trips) eqn:E; cbn [andb].
  - rewrite forallb_forall in E. split.
    + intros [?|[(t & Ht & Hf)|[_ ?]]]; [done| |done].
      apply expands_false in Hf; [|by eapply (proj1 (Forall_forall _ _) Hpar)].
      rewrite E in Hf; [done|]. by apply list_elem_of_In.
    + intros V. right. right. split; [|done].
      intros t Ht. by apply E, list_elem_of_In.
  - split; [done|]. intros _. right. left.
    apply forallb_false in E as (t & Ht & Hf). exists t. split; [done|].
    apply expands_false; [|done]. by eapply (proj1 (Forall_forall _ _) Hpar).
Qed.

(** Where the origin has no edge to itself, whatever [run] returns in the
    three situations is a path that the checker rejects. *)
Lemma run_fallback_rejected G trips p :
  has_edge G 0 0 = false → Forall parallel trips → falls_back G trips →
  run G trips = Ok p → is_valid G p = false.
Proof.
  intros Hloop Hpar Hf%falls_back_iff; [|done]. rewrite run_eq, Hf by done.
  by apply baseline_not_admissible.
Qed.

(** There the two cases cannot give the same result, so the builder's
    result is returned in the three situations and in no other. *)
Lemma run_baseline_iff G trips :
  has_edge G 0 0 = false → Forall parallel trips →
  run G trips = _baseline_admissible_path G ↔ falls_back G trips.
Proof.
  intros Hloop Hpar. rewrite run_eq, falls_back_iff by done.
  destruct (truthy trips && forallb (expands G) trips
            && is_valid G (assembled G trips)) eqn:E; [|done].
  split; [|done]. intros Hb.
  apply andb_true_iff in E as [_ V].
  by rewrite (baseline_not_admissible G (assembled G trips)) in V.
Qed.

Lemma must_fall_back_iff G trips :
  must_fall_back G trips ↔ falls_back G trips.
Proof.
  unfold must_fall_back, falls_back.
  destruct trips as [|t0 trips']; [by split; left|].
  set (trips := t0 :: trips').
  assert ((∀ t, t ∈ trips → expands G t = true) →
          route G trips = assembled G trips) as Hr.
  { intros Hexp. symmetry. apply assembled_route; [done|].
    apply forallb_forall. intros t Ht. by apply Hexp, list_elem_of_In. }
  split; (intros [?|[?|[Hexp V]]]; [by left|by right; left|]);
    right; right; (split; [done|]); by rewrite ?Hr in *.
Qed.

(** C6. [run] returns what the baseline builder returns when the planner
    has no trips, when some trip expands to nothing, or when the checker
    rejects the route, which is the expanded trips concatenated in
    planner order and closed with [(0, 0)] when their last waypoint is not
    on the origin with a zero quantity; in every other case it returns
    that route. Where the origin has no edge to itself, the builder's
    result is returned in those three situations only. *)
Theorem run_falls_back_or_assembles G trips :
  Forall parallel trips →
  ((must_fall_back G trips ∧ run G trips = _baseline_admissible_path G) ∨
   (¬ must_fall_back G trips ∧ run G trips = Ok (route G trips))) ∧
  (has_edge G 0 0 = false →
   (run G trips = _baseline_admissible_path G ↔ must_fall_back G trips)).
Proof.
  intros Hpar. split.
  - rewrite must_fall_back_iff, falls_back_iff, run_eq by done.
    destruct (truthy trips && forallb (expands G) trips
              && is_valid G (assembled G trips)) eqn:E.
    + right. split; [done|].
      apply andb_true_iff in E as [[Ht He]%andb_true_iff _].
      rewrite assembled_route; [done| |done]. by destruct trips.
    + left. by split.
  - intros Hloop. rewrite must_fall_back_iff. by apply run_baseline_iff.
Qed.

(** C7. For at least two stops and a parallel pickup sequence,
    [_expand_path] returns the empty list, and raises nothing, exactly
    when some consecutive pair of stops has an endpoint that is not a node
    or has no walk from the first to the second. *)
Theorem expand_empty_iff_unreachable G (stops : list Z) (pickups : list PyNum) :
  (2 ≤ length stops)%nat → length pickups = length stops →
  _expand_path G stops pickups = Ok [] ↔
  ∃ i a b, stops !! i = Some a ∧ stops !! S i = Some b ∧
    (has_node G a = false ∨ has_node G b = false ∨ ¬ connected G a b).
Proof.
  intros Hlen Hpar. rewrite expand_path_eq by lia.
  destruct (forallb _ _) eqn:E.
  - split.
    + intros [= Hnil]. exfalso. revert E Hnil.
      destruct (length stops) as [|[|n]] eqn:En; [lia..|].
      unfold segments. simpl. unfold pair_ok at 1, segment at 1.
      destruct (index_lt stops 0) as (a & -> & _); [lia|].
      destruct (index_lt stops 1) as (b & -> & _); [lia|].
      destruct (index_lt pickups 0) as (ga & -> & _); [lia|].
      destruct (index_lt pickups 1) as (gb & -> & _); [lia|].
      by destruct (shortest_path G a b).
    + intros (i & a & b & Ha & Hb & Hf). exfalso.
      apply sp_raise_iff, (pair_ok_false _ stops i) in Hf; [|done..].
      rewrite forallb_forall in E. rewrite E in Hf; [done|].
      apply list_elem_of_In, elem_of_seq. apply lookup_lt_Some in Hb. lia.
  - split; [|done]. intros _.
    apply forallb_false in E as (i & Hi%elem_of_seq & Hf).
    destruct (index_lt stops i) as (a & Ha & _); [lia|].
    destruct (index_lt stops (S i)) as (b & Hb & _); [lia|].
    exists i, a, b. repeat split; [done..|].
    by apply sp_raise_iff, (pair_ok_false _ stops i).
Qed.

(** C9, as amended. The baseline builder returns a path when every gold
    is a float or an int in the range of [float]; on every graph a node
    with no walk from the origin or none back is skipped by its loop; and
    on a graph with a single node the result is [[(0, 0.0), (0, 0.0)]]. *)
Theorem baseline_cannot_fail G :
  (gold_in_range G → ∃ out, _baseline_admissible_path G = Ok out) ∧
  (∀ i rest out,
     ¬ connected G 0 (Z.of_nat i) ∨ ¬ connected G (Z.of_nat i) 0 →
     baseline_loop G (i :: rest) out = baseline_loop G rest out) ∧
  (number_of_nodes G = 1%nat →
   _baseline_admissible_path G = Ok [(0, zero_float); (0, zero_float)]).
Proof.
  split; [intros Hg; eexists; by apply baseline_ok|]. split.
  - intros i rest out. apply baseline_loop_skip.
  - intros Hn. rewrite baseline_eq, Hn. done.
Qed.

(** C10. When every trip expands and the concatenation already ends with
    a waypoint equal to [(0, 0)], with an integer or a float zero, the
    assembled path is the concatenation itself: no waypoint is appended,
    its last waypoint is the one the expansion ended with, and [run]
    returns it when the checker accepts it. *)
Theorem run_keeps_terminal G trips w :
  Forall parallel trips →
  (∀ t, t ∈ trips → expands G t = true) →
  last (concat (expansion G <$> trips)) = Some w →
  wp_eqb w (0, zero_int) = true →
  assembled G trips = concat (expansion G <$> trips) ∧
  last (assembled G trips) = Some w ∧
  run G trips =
    if is_valid G (concat (expansion G <$> trips))
    then Ok (concat (expansion G <$> trips))
    else _baseline_admissible_path G.
Proof.
  intros Hpar Hexp Hlast Hw.
  assert (assembled G trips = concat (expansion G <$> trips)) as Ha.
  { unfold assembled, ensure_terminal. by rewrite Hlast, Hw. }
  split; [done|]. split; [by rewrite Ha|]. rewrite run_eq, Ha by done.
  destruct trips as [|t trips]; [done|]. simpl truthy. cbn [andb].
  replace (forallb (expands G) (t :: trips)) with true; [done|].
  symmetry. apply forallb_forall. intros t' Ht'. by apply Hexp, list_elem_of_In.
Qed.

(** C3, as amended. When there is a trip, every trip has as many pickups
    as stops and no two equal consecutive stops, and every trip expands:
    if the route, the concatenated expansions closed with [(0, 0)] when
    needed, passes the checker, [run] returns it and the sum of its
    quantities is the sum of the planner's pickups; if the route fails
    the checker, [run] returns what the baseline builder returns. *)
Theorem run_conserves_pickups G trips :
  trips ≠ [] →
  Forall parallel trips → Forall (λ t, no_repeat (stops t)) trips →
  (∀ t, t ∈ trips → expands G t = true) →
  (is_valid G (route G trips) = true →
   run G trips = Ok (route G trips) ∧
   Qeq (path_sum (route G trips)) (pickups_total trips)) ∧
  (is_valid G (route G trips) = false →
   run G trips = _baseline_admissible_path G).
Proof.
  intros Hne Hpar Hnr Hexp.
  assert (forallb (expands G) trips = true) as Hall.
  { apply forallb_forall. intros t Ht. by apply Hexp, list_elem_of_In. }
  rewrite run_eq, Hall, <- (assembled_route G trips) by done.
  assert (truthy trips = true) as -> by by destruct trips. cbn [andb].
  split; intros ->; [|done]. split; [done|].
  unfold assembled. rewrite ensure_terminal_sum. by apply expansions_sum.
Qed.

End Properties.

(** ** Further properties of the program *)

(** *** The checker looks at nodes only *)

Lemma forallb_zip_linked G (p : Path) :
  forallb (λ '((n1, _), (n2, _)), has_edge G n1 n2) (zip p (tail p)) = true ↔
  linked G (nodes_of p).
Proof.
  induction p as [|[n1 q1] [|[n2 q2] p] IH]; [done..|].
  change (zip ((n1, q1) :: (n2, q2) :: p) (tail ((n1, q1) :: (n2, q2) :: p)))
    with (((n1, q1), (n2, q2)) :: zip ((n2, q2) :: p) (tail ((n2, q2) :: p))).
  simpl forallb. rewrite andb_true_iff, IH. done.
Qed.

Lemma is_valid_walk_iff G (p : Path) :
  is_valid G p = true ↔
  ∃ n0, head (nodes_of p) = Some n0 ∧ (n0 = 0 ∨ has_edge G 0 n0 = true) ∧
        linked G (nodes_of p).
Proof.
  destruct p as [|[n0 q0] p].
  - split; [done|]. by intros (? & ? & _).
  - unfold is_valid.
    destruct (negb (n0 =? 0) && negb (has_edge G 0 n0)) eqn:E.
    + split; [done|]. intros (n & [= <-] & Hn & _).
      apply andb_true_iff in E as [E1 E2].
      apply negb_true_iff in E1, E2. apply Z.eqb_neq in E1.
      destruct Hn; congruence.
    + rewrite (forallb_zip_linked G ((n0, q0) :: p)). split.
      * intros Hl. exists n0. split; [done|]. split; [|done].
        apply andb_false_iff in E as [E|E]; apply negb_false_iff in E.
        -- left. by apply Z.eqb_eq.
        -- by right.
      * by intros (_ & _ & _ & ?).
Qed.

(** X1. The checker looks at the nodes only: two paths over the same
    node sequence get the same verdict, whatever their quantities. *)
Theorem is_valid_nodes_only G (p p' : Path) :
  nodes_of p = nodes_of p' → is_valid G p = is_valid G p'.
Proof.
  intros Hn.
  destruct (is_valid G p) eqn:E, (is_valid G p') eqn:E'; try done.
  - apply is_valid_walk_iff in E. rewrite Hn in E.
    apply is_valid_walk_iff in E. congruence.
  - apply is_valid_walk_iff in E'. rewrite <- Hn in E'.
    apply is_valid_walk_iff in E'. congruence.
Qed.

Lemma linked_app G l1 l2 u :
  last l1 = Some u → linked G (l1 ++ l2) ↔ linked G l1 ∧ linked G (u :: l2).
Proof.
  revert u. induction l1 as [|x [|y l1] IH]; intros u Hl; [done| |].
  - simpl in Hl. simplify_eq. simpl. destruct l2; tauto.
  - rewrite last_cons_cons in Hl. specialize (IH u Hl).
    change ((x :: y :: l1) ++ l2) with (x :: (y :: l1) ++ l2).
    change (linked G (x :: (y :: l1) ++ l2))
      with (has_edge G x y = true ∧ linked G ((y :: l1) ++ l2)).
    change (linked G (x :: y :: l1))
      with (has_edge G x y = true ∧ linked G (y :: l1)).
    rewrite IH. tauto.
Qed.

(** X2. A path [p ++ q] is accepted exactly when [p] is accepted and [q]
    continues from the last node of [p] along edges. In particular every
    non-empty prefix of an accepted path is accepted. *)
Theorem is_valid_app G (p q : Path) w :
  last p = Some w →
  is_valid G (p ++ q) = true ↔
  is_valid G p = true ∧ linked G (w.1 :: nodes_of q).
Proof.
  intros Hl.
  assert (last (nodes_of p) = Some w.1) as Hl1.
  { unfold nodes_of, Path, Waypoint in *. by rewrite fmap_last, Hl. }
  pose proof (linked_app G (nodes_of p) (nodes_of q) w.1 Hl1) as Happ.
  assert (nodes_of (p ++ q) = nodes_of p ++ nodes_of q) as Hn
    by apply fmap_app.
  assert (head (nodes_of p ++ nodes_of q) = head (nodes_of p)) as Hh
    by by destruct p.
  rewrite !is_valid_walk_iff, Hn, Hh. split.
  - intros (n0 & ? & ? & [? ?]%Happ). eauto 10.
  - intros [(n0 & ? & ? & ?) ?]. exists n0. repeat split; try done.
    by apply Happ.
Qed.

Section Further.
Context `{PathOracle}.

(** *** The expander's output as a walk *)

Lemma segment_rest_nodes full g : nodes_of (segment_rest full g) = tail full.
Proof.
  unfold nodes_of, segment_rest. rewrite <- list_fmap_compose.
  replace (length full - 1)%nat with (length (tail full))
    by (destruct full; simpl; lia).
  rewrite (fmap_seq_lookup _ id (tail full) 1); [apply list_fmap_id|].
  intros i x Hx. simpl. apply nth_lookup_Some. by rewrite <- lookup_tail.
Qed.

Lemma walk_join G a b c l p :
  walk G a b l → walk G b c p → walk G a c (l ++ tail p).
Proof.
  intros (Hh & Hl & Hlk) (Hh' & Hl' & Hlk').
  destruct p as [|x q]; [done|]. simpl in Hh'. simplify_eq. simpl.
  repeat split.
  - by destruct l.
  - destruct q as [|y q]; [simpl in Hl'; simplify_eq; by rewrite app_nil_r|].
    rewrite last_cons_cons in Hl'. rewrite last_app, Hl'. done.
  - by apply (linked_app G l q b).
Qed.

Lemma segment_nodes G stops pickups i a b full :
  (S i < length pickups)%nat →
  stops !! i = Some a → stops !! S i = Some b →
  shortest_path G a b = Ok full →
  nodes_of (segment G stops pickups i) =
  (if (i =? 0)%nat then [a] else []) ++ tail full.
Proof.
  intros Hp Ha Hb E. unfold segment. rewrite Ha, Hb, E.
  destruct (index_lt pickups i) as (ga & -> & _); [lia|].
  destruct (index_lt pickups (S i)) as (gb & -> & _); [lia|].
  unfold nodes_of. rewrite fmap_app. fold (nodes_of (segment_rest full gb)).
  rewrite segment_rest_nodes. f_equal.
  destruct (i =? 0)%nat; [|done]. simpl. f_equal.
  apply sp_walk in E as (Hh & _). destruct full; simpl in *; by simplify_eq.
Qed.

Lemma pair_ok_path G stops i :
  pair_ok G stops i = true →
  ∃ a b full, stops !! i = Some a ∧ stops !! S i = Some b ∧
              shortest_path G a b = Ok full.
Proof.
  unfold pair_ok. destruct (stops !! i) as [a|]; [|done].
  destruct (stops !! S i) as [b|]; [|done].
  destruct (shortest_path G a b) as [full|] eqn:E; [|done]. eauto 10.
Qed.

Lemma segments_walk G stops pickups c k l a sk :
  (1 ≤ k)%nat → (k + c < length pickups)%nat →
  (∀ i, (k ≤ i < k + c)%nat → pair_ok G stops i = true) →
  stops !! k = Some sk → walk G a sk l →
  ∃ sc, stops !! (k + c)%nat = Some sc ∧
        walk G a sc (l ++ nodes_of (segments G stops pickups (seq k c))).
Proof.
  revert k l sk. induction c as [|c IH]; intros k l sk Hk Hlen Hok Hsk Hw.
  - exists sk. rewrite Nat.add_0_r. split; [done|].
    unfold segments. simpl. by rewrite app_nil_r.
  - destruct (pair_ok_path G stops k) as (a' & b & full & Ha & Hb & E);
      [apply Hok; lia|]. simplify_eq.
    cbn [seq]. rewrite segments_cons. unfold nodes_of. rewrite fmap_app.
    fold (nodes_of (segment G stops pickups k)).
    fold (nodes_of (segments G stops pickups (seq (S k) c))).
    rewrite (segment_nodes _ _ _ _ sk b full) by (done || lia).
    destruct (Nat.eqb_spec k 0) as [?|_]; [lia|]. simpl. rewrite app_assoc.
    replace (k + S c)%nat with (S k + c)%nat by lia.
    apply (IH (S k) _ b); [lia|lia| |done|].
    + intros i Hi. apply Hok. lia.
    + apply (walk_join G a sk b); [done|by apply sp_walk].
Qed.

(** What a successful expansion of a trip is made of. *)
Lemma expansion_segments G t :
  parallel t → expands G t = true →
  (2 ≤ length (stops t))%nat ∧
  (∀ i, (i < length (stops t) - 1)%nat → pair_ok G (stops t) i = true) ∧
  expansion G t =
    segments G (stops t) (pickups t) (seq 0 (length (stops t) - 1)).
Proof.
  unfold parallel, expands, expansion. intros Hpar.
  rewrite expand_path_eq by lia.
  destruct (forallb _ _) eqn:E; [|done]. intros Hne.
  rewrite forallb_forall in E.
  destruct (length (stops t)) as [|[|n]] eqn:En; [done..|].
  split; [lia|]. split; [|done].
  intros i Hi. apply E, list_elem_of_In, elem_of_seq. lia.
Qed.

Lemma expansion_walk_from G t :
  parallel t → expands G t = true →
  ∃ a b ga rest,
    head (stops t) = Some a ∧ last (stops t) = Some b ∧
    head (pickups t) = Some ga ∧
    expansion G t = (a, ga) :: rest ∧
    walk G a b (nodes_of (expansion G t)).
Proof.
  intros Hpar Hexp.
  destruct (expansion_segments G t Hpar Hexp) as (Hn & Hok & ->).
  unfold parallel in Hpar.
  destruct (pair_ok_path G (stops t) 0) as (a & s1 & full & Ha & Hs1 & E);
    [apply Hok; lia|].
  destruct (index_lt (pickups t) 0) as (ga & Hga & _); [lia|].
  destruct (index_lt (pickups t) 1) as (gb & Hgb & _); [lia|].
  destruct (segments_walk G (stops t) (pickups t)
              (length (stops t) - 2) 1 full a s1) as (b & Hb & Hw);
    [lia|lia| |done|by apply sp_walk|].
  { intros i Hi. apply Hok. lia. }
  replace (length (stops t) - 1)%nat with (S (length (stops t) - 2)) by lia.
  cbn [seq]. rewrite segments_cons.
  assert ([a] ++ tail full = full) as Hfull.
  { apply sp_walk in E as (Hh & _). destruct full; simpl in *; by simplify_eq. }
  exists a, b, ga,
    (segment_rest full gb
       ++ segments G (stops t) (pickups t) (seq 1 (length (stops t) - 2))).
  split; [by rewrite head_lookup|]. split.
  { rewrite last_lookup.
    by replace (pred (length (stops t)))
      with (1 + (length (stops t) - 2))%nat by lia. }
  split; [by rewrite head_lookup|]. split.
  - unfold segment. rewrite Ha, Hs1, Hga, Hgb, E. simpl. do 3 f_equal.
    by rewrite <- Hfull.
  - unfold nodes_of in *. rewrite fmap_app.
    fold (nodes_of (segment G (stops t) (pickups t) 0)).
    rewrite (segment_nodes _ _ _ _ a s1 full) by (done || lia).
    cbn [Nat.eqb]. rewrite Hfull. apply Hw.
Qed.


Lemma last_nodes_of (p : Path) : last (nodes_of p) = fst <$> last p.
Proof. apply fmap_last. Qed.

(** X3. A trip that expands gives a path that starts with the first stop
    and the first pickup, ends on the last stop, and whose nodes form a
    walk in the graph from the first stop to the last. *)
Theorem expansion_is_walk G t :
  parallel t → expands G t = true →
  ∃ a b ga w,
    head (stops t) = Some a ∧ last (stops t) = Some b ∧
    head (pickups t) = Some ga ∧
    head (expansion G t) = Some (a, ga) ∧
    last (expansion G t) = Some w ∧ w.1 = b ∧
    walk G a b (nodes_of (expansion G t)).
Proof.
  intros Hpar Hexp.
  destruct (expansion_walk_from G t Hpar Hexp)
    as (a & b & ga & rest & Ha & Hb & Hga & He & Hw).
  destruct (last (expansion G t)) as [w|] eqn:Hl.
  - exists a, b, ga, w. repeat split; try done; try by rewrite He.
    + destruct Hw as (_ & Hlast & _).
      rewrite last_nodes_of, Hl in Hlast. simpl in Hlast. by simplify_eq.
    + apply Hw.
    + apply Hw.
  - apply last_None in Hl. by rewrite He in Hl.
Qed.

(** *** What [run] returns and what it refuses *)

Lemma is_valid_of_walk G (p : Path) a b :
  walk G a b (nodes_of p) → a = 0 ∨ has_edge G 0 a = true →
  is_valid G p = true.
Proof.
  intros (Hh & _ & Hlk) Ha. apply is_valid_walk_iff. eauto.
Qed.

Lemma ensure_terminal_keep (p : Path) w :
  last p = Some w → wp_eqb w (0, zero_int) = true → ensure_terminal p = p.
Proof. intros Hl Hw. unfold ensure_terminal. by rewrite Hl, Hw. Qed.

Lemma ensure_terminal_append (p : Path) w :
  last p = Some w → wp_eqb w (0, zero_int) = false →
  ensure_terminal p = p ++ [(0, zero_int)].
Proof.
  intros Hl Hw. unfold ensure_terminal. by rewrite Hl, wp_eqb_zero, Hw.
Qed.

(** X9. A single trip that starts on the origin or on a neighbour of it
    and whose expansion ends with a waypoint equal to [(0, 0)] is returned
    by [run] as it was expanded. *)
Theorem run_single_trip G t a w :
  parallel t → expands G t = true →
  head (stops t) = Some a → a = 0 ∨ has_edge G 0 a = true →
  last (expansion G t) = Some w → wp_eqb w (0, zero_int) = true →
  run G [t] = Ok (expansion G t).
Proof.
  intros Hpar Hexp Ha Hadj Hl Hw.
  destruct (expansion_walk_from G t Hpar Hexp)
    as (a' & b & ga & rest & Ha' & _ & _ & _ & Hwalk). simplify_eq.
  rewrite run_eq by by repeat constructor.
  unfold assembled. simpl. rewrite app_nil_r, Hexp.
  rewrite (ensure_terminal_keep _ w) by done.
  by rewrite (is_valid_of_walk G _ a b).
Qed.

(** X10. When the concatenated expansions end with a waypoint that is not
    equal to [(0, 0)] and whose node has no edge to the origin, [run]
    returns the baseline path. Without a self-loop at the origin this is
    the case of a last stop on the origin with a non-zero pickup. *)
Theorem run_refuses_unlinked_end G trips w :
  Forall parallel trips →
  last (concat (expansion G <$> trips)) = Some w →
  wp_eqb w (0, zero_int) = false → has_edge G w.1 0 = false →
  run G trips = _baseline_admissible_path G.
Proof.
  intros Hpar Hl Hw He. rewrite run_eq by done. unfold assembled.
  rewrite (ensure_terminal_append _ w) by done.
  match goal with
  | |- context [is_valid G ?p] => destruct (is_valid G p) eqn:V
  end; [|by rewrite !andb_false_r].
  apply (is_valid_app G _ _ w Hl) in V as [_ [V _]]. simpl in V. congruence.
Qed.

Lemma linked_middle G l0 l1 u v l2 :
  linked G (l0 ++ (l1 ++ [u]) ++ v :: l2) → has_edge G u v = true.
Proof.
  intros Hl%linked_app_r. rewrite <- app_assoc in Hl.
  apply linked_app_r in Hl. by destruct Hl.
Qed.

Lemma is_valid_ensure_terminal G (p : Path) :
  is_valid G (ensure_terminal p) = true → is_valid G p = true.
Proof.
  unfold ensure_terminal. destruct (last p) as [w|] eqn:Hl; [|done].
  destruct (_ && _); [|done].
  by intros [? _]%(is_valid_app G p [(0, zero_int)] w Hl).
Qed.

Lemma is_valid_linked_nodes G (p : Path) :
  is_valid G p = true → linked G (nodes_of p).
Proof. by intros (_ & _ & _ & ?)%is_valid_walk_iff. Qed.

(** X11. When a trip starts on the stop the trip before it ends on, and
    that node has no edge to itself, [run] returns the baseline path. *)
Theorem run_refuses_chained_trips G pre t1 t2 post v :
  Forall parallel (pre ++ t1 :: t2 :: post) →
  last (stops t1) = Some v → head (stops t2) = Some v →
  has_edge G v v = false →
  run G (pre ++ t1 :: t2 :: post) = _baseline_admissible_path G.
Proof.
  intros Hpar Hv1 Hv2 Hloop. rewrite run_eq by done.
  destruct (forallb (expands G) (pre ++ t1 :: t2 :: post)) eqn:E;
    [|by rewrite andb_false_r].
  destruct (is_valid G (assembled G (pre ++ t1 :: t2 :: post))) eqn:V;
    [|by rewrite andb_false_r].
  exfalso. rewrite forallb_forall in E.
  apply Forall_app in Hpar as [_ Hpar].
  apply Forall_cons in Hpar as [Hp1 Hpar]. apply Forall_cons in Hpar as [Hp2 _].
  destruct (expansion_walk_from G t1) as (a1 & b1 & _ & _ & _ & Hb1 & _ & _ & Hw1);
    [done|apply E, list_elem_of_In; set_solver|].
  destruct (expansion_walk_from G t2) as (a2 & b2 & g2 & r2 & Ha2 & _ & _ & He2 & _);
    [done|apply E, list_elem_of_In; set_solver|].
  simplify_eq.
  destruct Hw1 as (_ & Hlast1 & _).
  apply last_Some in Hlast1 as [l1 Hl1].
  apply is_valid_ensure_terminal, is_valid_linked_nodes in V.
  unfold nodes_of in *.
  rewrite fmap_app, concat_app, fmap_app in V. simpl in V.
  rewrite !fmap_app, Hl1, He2 in V. simpl in V.
  apply linked_middle in V. congruence.
Qed.

(** X12. Where the origin has no edge to itself, the checker accepts a
    path that [run] returns exactly when [run] did not fall back; and
    [run] does return a path when it does not fall back, and when every
    gold is a float or an int in the range of [float]. *)
Theorem run_valid_iff_no_fallback G trips :
  has_edge G 0 0 = false → Forall parallel trips →
  (∀ p, run G trips = Ok p →
     (is_valid G p = true ↔ ¬ falls_back G trips)) ∧
  (¬ falls_back G trips → ∃ p, run G trips = Ok p) ∧
  (gold_in_range G → ∃ p, run G trips = Ok p).
Proof.
  intros Hloop Hpar. pose proof (falls_back_iff G trips Hpar) as Hfb.
  rewrite run_eq by done.
  destruct (truthy trips && forallb (expands G) trips
            && is_valid G (assembled G trips)) eqn:E.
  - split; [|split; intros _; by eexists].
    intros p [= <-]. apply andb_true_iff in E as [_ V].
    rewrite Hfb, V. done.
  - split; [|split].
    + intros p Hp. rewrite (baseline_not_admissible G p Hloop Hp), Hfb.
      split; [done|]. by intros [].
    + intros []. by apply Hfb.
    + intros Hg. eexists. by apply baseline_ok.
Qed.

(** X6. A trip with fewer than two stops expands to the empty list, and a
    planner result that holds such a trip makes [run] return the baseline
    path. *)
Theorem short_trip_falls_back G trips t :
  Forall parallel trips → t ∈ trips → (length (stops t) ≤ 1)%nat →
  _expand_path G (stops t) (pickups t) = Ok [] ∧
  run G trips = _baseline_admissible_path G.
Proof.
  intros Hpar Ht Hlen.
  assert (_expand_path G (stops t) (pickups t) = Ok []) as He.
  { unfold _expand_path.
    by replace (length (stops t) - 1)%nat with 0%nat by lia. }
  split; [done|]. rewrite run_eq by done.
  assert (forallb (expands G) trips = false) as ->; [|by rewrite andb_false_r].
  apply forallb_false. exists t. split; [done|].
  unfold expands, expansion. by rewrite He.
Qed.


(** *** Bounds and exceptions *)

Lemma expand_loop_short G stops pickups c k out :
  (k ≤ pred (length pickups))%nat → (pred (length pickups) < k + c)%nat →
  (k + c < length stops)%nat →
  expand_loop G stops pickups (seq k c) out =
  if forallb (pair_ok G stops) (seq k (pred (length pickups) - k))
  then Raise IndexError else Ok [].
Proof.
  revert k out. induction c as [|c IH]; intros k out Hk Hf Hn; [lia|].
  cbn [seq expand_loop].
  destruct (index_lt stops k) as (a & Ha & ->); [lia|].
  rewrite Nat.add_1_r.
  destruct (index_lt stops (S k)) as (b & Hb & ->); [lia|]. simpl.
  destruct (decide (k = pred (length pickups))) as [Hkf|Hkf].
  - replace (pred (length pickups) - k)%nat with 0%nat by lia. simpl.
    unfold index. destruct (pickups !! k) as [ga|] eqn:Ega; [|done]. simpl.
    rewrite (lookup_ge_None_2 pickups (S k)) by lia. done.
  - destruct (index_lt pickups k) as (ga & Hga & ->); [lia|].
    destruct (index_lt pickups (S k)) as (gb & Hgb & ->); [lia|]. simpl.
    replace (pred (length pickups) - k)%nat
      with (S (pred (length pickups) - S k)) by lia.
    cbn [seq forallb]. unfold pair_ok at 1. rewrite Ha, Hb.
    destruct (shortest_path G a b) as [full|e] eqn:E.
    + assert (index full 0 = Ok (nth 0 full 0)) as Hf0.
      { apply sp_ok_nonempty in E. by destruct full. }
      simpl. destruct (k =? 0)%nat; simpl; [rewrite Hf0; simpl|];
        apply IH; lia.
    + by apply sp_raises in E as [->| ->].
Qed.

(** X7. With at least two stops and fewer pickups than stops,
    [_expand_path] raises IndexError when every pair that has both its
    pickups has a shortest path, and returns the empty list when one of
    them has none. *)
Theorem expand_index_error G (stops : list Z) (pickups : list PyNum) :
  (2 ≤ length stops)%nat → (length pickups < length stops)%nat →
  _expand_path G stops pickups =
  if forallb (pair_ok G stops) (seq 0 (length pickups - 1))
  then Raise IndexError else Ok [].
Proof.
  intros Hn Hm. unfold _expand_path.
  rewrite expand_loop_short by lia.
  by replace (pred (length pickups) - 0)%nat
    with (length pickups - 1)%nat by lia.
Qed.

Lemma run_loop_prefix G pre l path :
  Forall (λ t, parallel t ∧ expands G t = true) pre →
  run_loop G (pre ++ l) path =
  run_loop G l (path ++ concat (expansion G <$> pre)).
Proof.
  intros Hpre. revert path.
  induction Hpre as [|t pre [Hp He] _ IH]; intros path; simpl.
  - by rewrite app_nil_r.
  - rewrite expand_path_ok by done. simpl. unfold expands in He.
    destruct (expansion G t) as [|w seg] eqn:E; [done|].
    rewrite IH. by rewrite <- app_assoc.
Qed.

(** X8. An exception raised while a trip is expanded leaves [run] when
    the trips before it expanded: there is no fallback for it. *)
Theorem run_propagates_exception G pre t post e :
  Forall (λ t, parallel t ∧ expands G t = true) pre →
  _expand_path G (stops t) (pickups t) = Raise e →
  run G (pre ++ t :: post) = Raise e.
Proof.
  intros Hpre He.
  assert (run G (pre ++ t :: post) = run_loop G (pre ++ t :: post) []) as ->
    by by destruct pre.
  rewrite run_loop_prefix by done. simpl. by rewrite He.
Qed.

(** *** The placement rule when no stop is repeated *)

Lemma full_split full a b :
  head full = Some a → last full = Some b → (2 ≤ length full)%nat →
  full = a :: inner full ++ [b].
Proof.
  intros Hh Hl Hlen. destruct full as [|x full]; [done|].
  simpl in Hh. simplify_eq.
  destruct full as [|y full] using rev_ind; [simpl in Hlen; lia|].
  clear IHfull. rewrite app_comm_cons, last_snoc in Hl. simplify_eq.
  unfold inner. simpl. rewrite drop_0, length_app. simpl.
  replace (length full + 1 - 1)%nat with (length full) by lia.
  by rewrite take_app_length.
Qed.

Lemma segment_placed G stops pickups i a b ga gb :
  stops !! i = Some a → stops !! S i = Some b → a ≠ b →
  pickups !! i = Some ga → pickups !! S i = Some gb →
  pair_ok G stops i = true →
  segment G stops pickups i =
  (if (i =? 0)%nat then [(a, ga)] else []) ++ placed G stops pickups i.
Proof.
  intros Ha Hb Hne Hga Hgb Hok. unfold pair_ok in Hok.
  unfold segment, placed. rewrite Ha, Hb, Hga, Hgb in *.
  destruct (shortest_path G a b) as [full|] eqn:E; [|done].
  apply sp_walk in E. pose proof (walk_length G a b full E Hne) as Hlen.
  destruct E as (Hh & Hl & _).
  rewrite (full_split full a b) at 1 2 by done.
  rewrite segment_rest_placement. done.
Qed.

(** X4. With parallel sequences and no stop repeated in a row, a
    successful expansion is the first stop with its pickup, followed for
    each pair by the inner nodes of the shortest path with 0.0 and the
    stop the pair ends on with that stop's pickup. *)
Theorem expand_placement G (stops : list Z) (pickups : list PyNum) out :
  length pickups = length stops → no_repeat stops →
  _expand_path G stops pickups = Ok out → out ≠ [] →
  ∃ a ga, stops !! 0%nat = Some a ∧ pickups !! 0%nat = Some ga ∧
    out = (a, ga)
          :: concat (placed G stops pickups <$> seq 0 (length stops - 1)).
Proof.
  intros Hpar Hnr. rewrite expand_path_eq by lia.
  destruct (forallb _ _) eqn:E; [|by intros [= <-]]. intros [= <-] Hne.
  rewrite forallb_forall in E.
  assert (∀ i, (i < length stops - 1)%nat → pair_ok G stops i = true) as Hok
    by (intros i Hi; apply E, list_elem_of_In, elem_of_seq; lia).
  destruct (length stops) as [|[|n]] eqn:En; [done..|].
  replace (S (S n) - 1)%nat with (S n) in * by lia.
  destruct (index_lt stops 0) as (a & Ha & _); [lia|].
  destruct (index_lt stops 1) as (b & Hb & _); [lia|].
  destruct (index_lt pickups 0) as (ga & Hga & _); [lia|].
  destruct (index_lt pickups 1) as (gb & Hgb & _); [lia|].
  exists a, ga. split; [done|]. split; [done|].
  cbn [seq]. rewrite segments_cons.
  rewrite (segment_placed _ _ _ 0 a b ga gb); try done;
    [|by eapply Hnr|apply Hok; lia].
  simpl. do 2 f_equal. unfold segments. f_equal.
  apply list_fmap_ext. intros j i Hi.
  apply lookup_seq in Hi as [-> Hj].
  destruct (index_lt stops (1 + j)) as (a' & Ha' & _); [lia|].
  destruct (index_lt stops (S (1 + j))) as (b' & Hb' & _); [lia|].
  destruct (index_lt pickups (1 + j)) as (ga' & Hga' & _); [lia|].
  destruct (index_lt pickups (S (1 + j))) as (gb' & Hgb' & _); [lia|].
  rewrite (segment_placed _ _ _ (1 + j) a' b' ga' gb'); try done;
    [by eapply Hnr|apply Hok; lia].
Qed.

(** X5. With parallel sequences and no stop repeated in a row, the
    quantities of a successful expansion add up to the pickups. *)
Theorem expand_conserves G (stops : list Z) (pickups : list PyNum) out :
  length pickups = length stops → no_repeat stops →
  _expand_path G stops pickups = Ok out → out ≠ [] →
  Qeq (path_sum out) (quantities_sum pickups).
Proof.
  intros Hpar Hnr He Hne.
  pose proof (expansion_sum G {| stops := stops; pickups := pickups |}
                Hpar Hnr) as Hs.
  unfold expands, expansion in Hs. simpl in Hs. rewrite He in Hs.
  apply Hs. by destruct out.
Qed.


(** *** The baseline path *)

Lemma soft_linked_app G l1 l2 u :
  last l1 = Some u →
  soft_linked G (l1 ++ l2) ↔ soft_linked G l1 ∧ soft_linked G (u :: l2).
Proof.
  revert u. induction l1 as [|x [|y l1] IH]; intros u Hl; [done| |].
  - simpl in Hl. simplify_eq. simpl. destruct l2; tauto.
  - rewrite last_cons_cons in Hl. specialize (IH u Hl).
    change ((x :: y :: l1) ++ l2) with (x :: (y :: l1) ++ l2).
    change (soft_linked G (x :: (y :: l1) ++ l2))
      with ((x = y ∨ has_edge G x y = true)
            ∧ soft_linked G ((y :: l1) ++ l2)).
    change (soft_linked G (x :: y :: l1))
      with ((x = y ∨ has_edge G x y = true) ∧ soft_linked G (y :: l1)).
    rewrite IH. tauto.
Qed.

Lemma linked_soft G p : linked G p → soft_linked G p.
Proof.
  induction p as [|x [|y p] IH]; [done..|]. intros [He Hl].
  split; [by right|]. by apply IH.
Qed.

Lemma soft_linked_lookup G p i u v :
  soft_linked G p → p !! i = Some u → p !! S i = Some v →
  u = v ∨ has_edge G u v = true.
Proof.
  revert i. induction p as [|x [|y p] IH]; intros i Hs Hu Hv; [done| |].
  - by destruct i.
  - destruct Hs as [Hxy Hs]. destruct i as [|i].
    + simpl in *. by simplify_eq.
    + by apply (IH i).
Qed.

(** Continuing a soft walk that ends on [a] with a walk from [a] to [b]. *)
Lemma soft_join G L a b p :
  soft_linked G L → last L = Some a → walk G a b p →
  soft_linked G (L ++ tail p) ∧ last (L ++ tail p) = Some b.
Proof.
  intros Hs Hl (Hh & Hlast & Hlk).
  destruct p as [|x q]; [done|]. simpl in Hh. simplify_eq. simpl. split.
  - apply (soft_linked_app G L q a); [done|]. split; [done|].
    by apply linked_soft.
  - destruct q as [|y q]; [simpl in Hlast; simplify_eq; by rewrite app_nil_r|].
    rewrite last_cons_cons in Hlast. by rewrite last_app, Hlast.
Qed.

Lemma transit_nodes p : nodes_of (transit p) = tail p.
Proof.
  unfold nodes_of, transit. rewrite <- list_fmap_compose.
  replace (length p - 1)%nat with (length (tail p))
    by (destruct p; simpl; lia).
  rewrite (fmap_seq_lookup _ id (tail p) 1); [apply list_fmap_id|].
  intros i x Hx. simpl. apply nth_lookup_Some. by rewrite <- lookup_tail.
Qed.

Lemma nodes_of_app (p q : Path) : nodes_of (p ++ q) = nodes_of p ++ nodes_of q.
Proof. apply fmap_app. Qed.

Lemma round_trip_soft G i L :
  soft_linked G L → last L = Some 0 →
  soft_linked G (L ++ nodes_of (round_trip G i)) ∧
  last (L ++ nodes_of (round_trip G i)) = Some 0.
Proof.
  intros Hs Hl. unfold round_trip.
  destruct (shortest_path G 0 i) as [p1|] eqn:E1;
    [|by rewrite app_nil_r].
  destruct (shortest_path G i 0) as [p2|] eqn:E2;
    [|by rewrite app_nil_r].
  destruct (_node G !! i) as [d|]; [|by rewrite app_nil_r].
  apply sp_walk in E1, E2.
  rewrite !nodes_of_app, !transit_nodes.
  change (nodes_of [(i, float_value (get_gold d))]) with [i].
  rewrite !app_assoc.
  destruct (soft_join G L 0 i p1 Hs Hl E1) as [Hs1 Hl1].
  assert (soft_linked G ((L ++ tail p1) ++ [i])
          ∧ last ((L ++ tail p1) ++ [i]) = Some i) as [Hs2 Hl2].
  { split; [|by rewrite last_snoc].
    apply (soft_linked_app G _ _ i Hl1). split; [done|]. simpl. auto. }
  by apply (soft_join G _ i 0 p2).
Qed.

Lemma round_trips_soft G idx L :
  soft_linked G L → last L = Some 0 →
  soft_linked G (L ++ nodes_of (round_trips G idx)) ∧
  last (L ++ nodes_of (round_trips G idx)) = Some 0.
Proof.
  revert L. induction idx as [|i idx IH]; intros L Hs Hl.
  - unfold round_trips. simpl. by rewrite app_nil_r.
  - change (i :: idx) with ([i] ++ idx).
    rewrite round_trips_app, nodes_of_app, app_assoc.
    unfold round_trips at 1 3. simpl. rewrite app_nil_r.
    destruct (round_trip_soft G (Z.of_nat i) L Hs Hl) as [Hs' Hl'].
    by apply IH.
Qed.

(** X13. Every two consecutive waypoints of the baseline path are on the
    same node or on two nodes joined by an edge. *)
Theorem baseline_stays_or_steps G p i w1 w2 :
  _baseline_admissible_path G = Ok p →
  p !! i = Some w1 → p !! S i = Some w2 →
  w1.1 = w2.1 ∨ has_edge G w1.1 w2.1 = true.
Proof.
  intros ->%baseline_inv H1 H2.
  destruct (round_trips_soft G (seq 1 (number_of_nodes G - 1)) [0])
    as [Hs Hl]; [done..|].
  set (R := round_trips G (seq 1 (number_of_nodes G - 1))) in *.
  assert (soft_linked G (nodes_of ([(0, zero_float)] ++ R ++ [(0, zero_float)])))
    as Hall.
  { rewrite app_assoc, nodes_of_app.
    apply (soft_linked_app G _ _ 0); [apply Hl|]. split; [apply Hs|].
    simpl. auto. }
  apply (soft_linked_lookup G _ i _ _ Hall); unfold nodes_of;
    rewrite list_lookup_fmap;
    [exact (f_equal (fmap fst) H1)|exact (f_equal (fmap fst) H2)].
Qed.

Lemma path_sum_transit p : Qeq (path_sum (transit p)) 0%Q.
Proof.
  unfold transit. induction (seq 1 (length p - 1)) as [|j l IH]; simpl.
  - reflexivity.
  - rewrite IH. ring.
Qed.

Lemma round_trip_sum G i :
  gold_exact G → has_node G 0 = true → has_node G i = true →
  connected G 0 i → connected G i 0 →
  Qeq (path_sum (round_trip G i)) (gold_value G i).
Proof.
  intros Hex H0 Hi Hc1 Hc2. unfold round_trip, gold_value.
  destruct (shortest_path G 0 i) as [p1|e] eqn:E1; cycle 1.
  { exfalso. assert (∃ e, shortest_path G 0 i = Raise e) as Hr by eauto.
    apply sp_raise_iff in Hr as [?|[?|?]]; congruence. }
  destruct (shortest_path G i 0) as [p2|e] eqn:E2; cycle 1.
  { exfalso. assert (∃ e, shortest_path G i 0 = Raise e) as Hr by eauto.
    apply sp_raise_iff in Hr as [?|[?|?]]; congruence. }
  destruct (_node G !! i) as [d|] eqn:Ed; [|reflexivity].
  destruct (py_float_exact _ (Hex i d Ed)) as (f & Ef & Hf).
  rewrite !path_sum_app, !path_sum_transit, (py_float_value _ f Ef).
  simpl. rewrite Hf. ring.
Qed.

Lemma round_trips_sum G idx :
  gold_exact G → has_node G 0 = true →
  (∀ i : nat, i ∈ idx →
     has_node G (Z.of_nat i) = true ∧
     connected G 0 (Z.of_nat i) ∧ connected G (Z.of_nat i) 0) →
  Qeq (path_sum (round_trips G idx))
      (foldr (λ (i : nat) acc, (gold_value G (Z.of_nat i) + acc)%Q) 0%Q idx).
Proof.
  intros Hex H0. induction idx as [|i idx IH]; intros Hall; [reflexivity|].
  change (i :: idx) with ([i] ++ idx). rewrite round_trips_app, path_sum_app.
  unfold round_trips at 1. simpl. rewrite app_nil_r.
  destruct (Hall i) as (Hi & Hc1 & Hc2); [by left|].
  rewrite round_trip_sum, IH by (done || intros j Hj; apply Hall; by right).
  reflexivity.
Qed.

Lemma gold_exact_in_range G : gold_exact G → gold_in_range G.
Proof.
  intros Hex i d Hd. specialize (Hex i d Hd).
  destruct (get_gold d) as [z|q]; [|done]. simpl in *.
  assert (2 ^ 53 < float_bound) by by vm_compute. lia.
Qed.

(** X14. When every gold is a float or an int of at most 2**53 in
    magnitude, and the origin and every id from 1 up to the node count
    are nodes with walks from the origin and back, the builder returns a
    path whose quantities add up to the gold of those nodes. *)
Theorem baseline_collects_all_gold G :
  gold_exact G → has_node G 0 = true →
  (∀ i : nat, (1 ≤ i < number_of_nodes G)%nat →
     has_node G (Z.of_nat i) = true ∧
     connected G 0 (Z.of_nat i) ∧ connected G (Z.of_nat i) 0) →
  ∃ p, _baseline_admissible_path G = Ok p ∧ Qeq (path_sum p) (total_gold G).
Proof.
  intros Hex H0 Hall. eexists.
  split; [by apply baseline_ok, gold_exact_in_range|].
  rewrite !path_sum_app, round_trips_sum; [|done|done|].
  - unfold total_gold. simpl. ring.
  - intros i Hi%elem_of_seq. apply Hall. lia.
Qed.

Lemma round_trips_nil G idx :
  (∀ i : nat, i ∈ idx → round_trip G (Z.of_nat i) = []) →
  round_trips G idx = [].
Proof.
  induction idx as [|i idx IH]; intros Hall; [done|].
  change (i :: idx) with ([i] ++ idx). rewrite round_trips_app.
  rewrite IH by (intros j Hj; apply Hall; by right).
  unfold round_trips. simpl. rewrite !app_nil_r. apply Hall. by left.
Qed.

(** X15. When no id from 1 up to the node count has a round trip with the
    origin, because a node is missing or a walk is, the baseline path is
    [[(0, 0.0), (0, 0.0)]]; so it is on a graph without the origin. *)
Theorem baseline_without_round_trips G :
  (∀ i : nat, (1 ≤ i < number_of_nodes G)%nat →
     has_node G 0 = false ∨ has_node G (Z.of_nat i) = false ∨
     ¬ connected G 0 (Z.of_nat i) ∨ ¬ connected G (Z.of_nat i) 0) →
  _baseline_admissible_path G = Ok [(0, zero_float); (0, zero_float)].
Proof.
  intros Hall.
  assert (∀ i : nat, i ∈ seq 1 (number_of_nodes G - 1) →
            round_trip G (Z.of_nat i) = []
            ∧ gold_converts G (Z.of_nat i) = true) as Hno.
  { intros i Hi%elem_of_seq. unfold round_trip, gold_converts.
    destruct (shortest_path G 0 (Z.of_nat i)) as [p1|] eqn:E1; [|done].
    destruct (shortest_path G (Z.of_nat i) 0) as [p2|] eqn:E2; [|done].
    exfalso. destruct (sp_ok_nodes _ _ _ _ E1) as [? ?].
    apply sp_walk in E1, E2.
    destruct (Hall i) as [?|[?|[[]|[]]]];
      [lia|congruence|congruence|by eexists|by eexists]. }
  rewrite baseline_eq.
  assert (forallb (λ i : nat, gold_converts G (Z.of_nat i))
            (seq 1 (number_of_nodes G - 1)) = true) as ->.
  { apply forallb_forall. intros i Hi%list_elem_of_In. by apply Hno. }
  rewrite round_trips_nil; [done|]. intros i Hi. by apply Hno.
Qed.

(** *** The terminal step *)

(** X16. Making the path end with [(0, 0)] a second time changes
    nothing. *)
Theorem ensure_terminal_idempotent (p : Path) :
  ensure_terminal (ensure_terminal p) = ensure_terminal p.
Proof.
  destruct (last p) as [w|] eqn:Hl.
  - destruct (wp_eqb w (0, zero_int)) eqn:Hw.
    + by rewrite !(ensure_terminal_keep p w).
    + rewrite (ensure_terminal_append p w) by done.
      apply (ensure_terminal_keep _ (0, zero_int)); [|done].
      by rewrite last_snoc.
  - unfold ensure_terminal. by rewrite Hl, Hl.
Qed.

End Further.

(** ** The program on concrete inputs, with the reference service *)

(** Scenario A: on the line 0 - 1 - 2 with no trips planned, the result
    goes to 1 and back, then to 2 through 1 and back. *)
Example scenario_A :
  run line3 [] =
  Ok [(0, zero_float); (1, zero_float); (1, PyFloat 10); (0, zero_float);
      (1, zero_float); (2, zero_float); (2, PyFloat 7); (1, zero_float);
      (0, zero_float); (0, zero_float)].
Proof. vm_compute. reflexivity. Qed.

(** Scenario B: the only trip leads to a city that cannot be reached, and
    the result is the baseline path. *)
Example scenario_B :
  _expand_path island (stops to_island) (pickups to_island) = Ok [] ∧
  run island [to_island] = _baseline_admissible_path island.
Proof. split; vm_compute; reflexivity. Qed.

(** C1. On two cities joined by an edge, with no trips planned, [run]
    returns the baseline path, and the checker rejects that path: it
    holds city 1 twice in a row and ends with the origin twice in a row,
    and neither city has an edge to itself. *)
Theorem baseline_fails_checker :
  run two_cities [] =
    Ok [(0, zero_float); (1, zero_float); (1, PyFloat 10);
        (0, zero_float); (0, zero_float)] ∧
  is_valid two_cities
    [(0, zero_float); (1, zero_float); (1, PyFloat 10);
     (0, zero_float); (0, zero_float)] = false.
Proof. split; vm_compute; reflexivity. Qed.

(** C2. For the stops [0, 1, 1, 0] with pickups [0.0, 3.0, 4.0, 0.0] the
    expansion succeeds and is [(0, 0.0), (1, 3.0), (0, 0.0)]: the
    quantity 4.0 of the third stop is on no waypoint. *)
Theorem expand_drops_repeated_stop :
  _expand_path two_cities (stops lingering) (pickups lingering) =
    Ok [(0, zero_float); (1, PyFloat 3); (0, zero_float)] ∧
  PyFloat 4 ∉ ((λ w : Waypoint, w.2) <$>
               [(0, zero_float); (1, PyFloat 3); (0, zero_float)]).
Proof.
  split; [vm_compute; reflexivity|].
  intros Hin. repeat (apply elem_of_cons in Hin as [[=]|Hin]).
  by apply elem_of_nil in Hin.
Qed.

(** C3, as stated, fails: two trips to city 1 and back both expand, the
    second starts on the node the first ended on, the checker rejects the
    assembled path, and the baseline path that [run] returns carries the
    gold of city 1, 10, while the pickups add up to 6. *)
Lemma conservation_counterexample :
  ¬ conservation_claim two_cities [there_and_back; there_and_back].
Proof.
  intros Hc. destruct Hc as (p & Hp & Hs).
  - intros t Ht. repeat (apply elem_of_cons in Ht as [->|Ht]);
      [vm_compute; reflexivity..|by apply elem_of_nil in Ht].
  - vm_compute in Hp. injection Hp as <-. vm_compute in Hs. discriminate.
Qed.

(** C4. In the graph with the nodes 0 and 5 joined by an edge, city 5
    has a shortest path from the origin and one back, yet the builder's
    loop over [range(1, number_of_nodes())] only tries the id 1: the
    baseline path is the origin twice, and city 5 is on no two
    consecutive waypoints of it. *)
Theorem baseline_skips_far_city :
  shortest_path far_city 0 5 = Ok [0; 5] ∧
  shortest_path far_city 5 0 = Ok [5; 0] ∧
  _baseline_admissible_path far_city = Ok [(0, zero_float); (0, zero_float)] ∧
  ¬ round_trip_claim far_city 5.
Proof.
  assert (_baseline_admissible_path far_city
          = Ok [(0, zero_float); (0, zero_float)]) as E
    by (vm_compute; reflexivity).
  split; [vm_compute; reflexivity|].
  split; [vm_compute; reflexivity|].
  split; [exact E|].
  intros Hc. destruct Hc as (pre & g & post & Hb);
    [done|eexists; vm_compute; reflexivity..|].
  rewrite E in Hb. injection Hb as Hb.
  destruct pre as [|w1 [|w2 pre]]; simpl in Hb; [done..|].
  injection Hb as _ _ Hb. by destruct pre.
Qed.

(** C5, as stated, fails: the graph holds the origin and city 1, whose
    gold is the int 2**1024; the planner returns no trips, the builder
    reaches [float(...)] for city 1, and [run] raises [OverflowError]
    instead of returning a path. *)
Lemma termination_counterexample : ¬ termination_claim overflowing [].
Proof.
  intros Hc. destruct Hc as (p & w & Hp & _); [by vm_compute|].
  vm_compute in Hp. discriminate.
Qed.

(** C9, as stated, fails: on the same graph both shortest paths of city 1
    exist, the conversion of its gold raises [OverflowError] outside the
    [try], and the builder returns no path. *)
Lemma builder_counterexample : ¬ builder_claim overflowing.
Proof.
  intros [out Hb]. vm_compute in Hb. discriminate.
Qed.

(** ** The theorems at concrete inputs *)

Lemma there_and_back_no_repeat : no_repeat (stops there_and_back).
Proof.
  intros [|[|[|i]]] a b Ha Hb; simpl in *; by simplify_eq.
Defined.

Lemma gold_in_range_list G :
  Forall (λ id : Z * NodeAttrs, in_float_range (get_gold id.2))
         (map_to_list (_node G)) →
  gold_in_range G.
Proof.
  intros Hall i d Hd. rewrite Forall_forall in Hall.
  by apply (Hall (i, d)), elem_of_map_to_list.
Defined.

Lemma gold_exact_list G :
  Forall (λ id : Z * NodeAttrs, exact_float (get_gold id.2))
         (map_to_list (_node G)) →
  gold_exact G.
Proof.
  intros Hall i d Hd. rewrite Forall_forall in Hall.
  by apply (Hall (i, d)), elem_of_map_to_list.
Defined.

Lemma two_cities_in_range : gold_in_range two_cities.
Proof.
  apply gold_in_range_list.
  set (l := map_to_list _). vm_compute in l. subst l. by repeat constructor.
Defined.

Lemma there_and_back_expands t :
  t ∈ [there_and_back] → expands two_cities t = true.
Proof.
  intros Ht. apply elem_of_cons in Ht as [->|Ht]; [by vm_compute|].
  by apply elem_of_nil in Ht.
Defined.

Lemma run_conserves_pickups_witness :
  is_valid two_cities (route two_cities [there_and_back]) = true ∧
  run two_cities [there_and_back] = Ok (route two_cities [there_and_back]) ∧
  Qeq (path_sum (route two_cities [there_and_back]))
      (pickups_total [there_and_back]).
Proof.
  split; [by vm_compute|].
  apply (run_conserves_pickups two_cities [there_and_back]).
  - done.
  - by repeat constructor.
  - repeat constructor. apply there_and_back_no_repeat.
  - apply there_and_back_expands.
  - by vm_compute.
Defined.

Lemma run_ends_at_origin_witness :
  (∃ w : Waypoint,
     last [(0, zero_float); (1, PyFloat 3); (0, PyInt 0)] = Some w ∧
     w.1 = 0 ∧ Qeq (num_val w.2) 0) ∧
  (∃ p, run two_cities [one_way] = Ok p) ∧
  run two_cities [one_way] =
    if is_valid two_cities
         (concat (expansion two_cities <$> [one_way]) ++ [(0, PyInt 0)])
    then Ok (concat (expansion two_cities <$> [one_way]) ++ [(0, PyInt 0)])
    else _baseline_admissible_path two_cities.
Proof.
  destruct (run_ends_at_origin two_cities [one_way]) as (H1 & H2 & H3);
    [by repeat constructor|].
  split; [apply H1; by vm_compute|].
  split; [apply H2, two_cities_in_range|].
  apply (H3 (1, PyFloat 3)).
  - intros t Ht. apply elem_of_cons in Ht as [->|Ht]; [by vm_compute|].
    by apply elem_of_nil in Ht.
  - by vm_compute.
  - intros [[=] _].
Defined.

Lemma run_falls_back_or_assembles_witness :
  ((must_fall_back island [to_island] ∧
    run island [to_island] = _baseline_admissible_path island) ∨
   (¬ must_fall_back island [to_island] ∧
    run island [to_island] = Ok (route island [to_island]))) ∧
  (run island [to_island] = _baseline_admissible_path island ↔
   must_fall_back island [to_island]).
Proof.
  destruct (run_falls_back_or_assembles island [to_island]) as [H1 H2];
    [by repeat constructor|].
  split; [exact H1|]. apply H2. by vm_compute.
Defined.

Lemma expand_empty_iff_unreachable_witness :
  _expand_path island (stops to_island) (pickups to_island) = Ok [] ↔
  ∃ i a b, stops to_island !! i = Some a ∧ stops to_island !! S i = Some b ∧
    (has_node island a = false ∨ has_node island b = false
     ∨ ¬ connected island a b).
Proof. apply expand_empty_iff_unreachable; simpl; lia. Defined.

Lemma island_in_range : gold_in_range island.
Proof.
  apply gold_in_range_list.
  set (l := map_to_list _). vm_compute in l. subst l. by repeat constructor.
Defined.

Lemma baseline_cannot_fail_witness :
  (∃ out, _baseline_admissible_path island = Ok out) ∧
  (∀ rest out,
     baseline_loop island (3%nat :: rest) out = baseline_loop island rest out) ∧
  _baseline_admissible_path lonely = Ok [(0, zero_float); (0, zero_float)].
Proof.
  destruct (baseline_cannot_fail island) as (H1 & H2 & _).
  split; [apply H1, island_in_range|].
  split; [|apply (baseline_cannot_fail lonely); by vm_compute].
  intros rest out. apply H2. left.
  by apply (sp_no_path island 0 3).
Defined.

Lemma run_keeps_terminal_witness :
  assembled two_cities [there_and_back]
    = concat (expansion two_cities <$> [there_and_back]) ∧
  last (assembled two_cities [there_and_back]) = Some (0, zero_float) ∧
  run two_cities [there_and_back] =
    if is_valid two_cities (concat (expansion two_cities <$> [there_and_back]))
    then Ok (concat (expansion two_cities <$> [there_and_back]))
    else _baseline_admissible_path two_cities.
Proof.
  apply run_keeps_terminal.
  - by repeat constructor.
  - intros t Ht. apply elem_of_cons in Ht as [->|Ht]; [by vm_compute|].
    by apply elem_of_nil in Ht.
  - by vm_compute.
  - by vm_compute.
Defined.

(** ** The further properties at concrete inputs *)

Lemma is_valid_nodes_only_witness :
  is_valid two_cities [(0, zero_float); (1, PyFloat 3); (0, zero_float)] =
  is_valid two_cities [(0, PyInt 7); (1, zero_float); (0, PyFloat 2)].
Proof. by apply is_valid_nodes_only. Defined.

Lemma is_valid_app_witness :
  is_valid two_cities ([(0, zero_float); (1, PyFloat 3)] ++ [(0, zero_float)])
    = true ↔
  is_valid two_cities [(0, zero_float); (1, PyFloat 3)] = true ∧
  linked two_cities ((1, PyFloat 3).1 :: nodes_of [(0, zero_float)]).
Proof. by apply is_valid_app. Defined.

Lemma expansion_is_walk_witness :
  ∃ a b ga w,
    head (stops there_and_back) = Some a ∧
    last (stops there_and_back) = Some b ∧
    head (pickups there_and_back) = Some ga ∧
    head (expansion two_cities there_and_back) = Some (a, ga) ∧
    last (expansion two_cities there_and_back) = Some w ∧ w.1 = b ∧
    walk two_cities a b (nodes_of (expansion two_cities there_and_back)).
Proof. apply expansion_is_walk; by vm_compute. Defined.

Lemma expand_placement_witness :
  ∃ a ga,
    stops there_and_back !! 0%nat = Some a ∧
    pickups there_and_back !! 0%nat = Some ga ∧
    [(0, zero_float); (1, PyFloat 3); (0, zero_float)] =
    (a, ga) :: concat (placed two_cities (stops there_and_back)
                         (pickups there_and_back)
                       <$> seq 0 (length (stops there_and_back) - 1)).
Proof.
  apply expand_placement.
  - done.
  - apply there_and_back_no_repeat.
  - by vm_compute.
  - done.
Defined.

Lemma expand_conserves_witness :
  Qeq (path_sum [(0, zero_float); (1, PyFloat 3); (0, zero_float)])
      (quantities_sum (pickups there_and_back)).
Proof.
  apply (expand_conserves two_cities (stops there_and_back)).
  - done.
  - apply there_and_back_no_repeat.
  - by vm_compute.
  - done.
Defined.

Lemma short_trip_falls_back_witness :
  _expand_path two_cities (stops stay_home) (pickups stay_home) = Ok [] ∧
  run two_cities [there_and_back; stay_home]
    = _baseline_admissible_path two_cities.
Proof.
  apply short_trip_falls_back.
  - by repeat constructor.
  - right. by left.
  - simpl. lia.
Defined.

Lemma expand_index_error_witness :
  _expand_path two_cities (stops short_pickups) (pickups short_pickups) =
  if forallb (pair_ok two_cities (stops short_pickups))
       (seq 0 (length (pickups short_pickups) - 1))
  then Raise IndexError else Ok [].
Proof. apply expand_index_error; simpl; lia. Defined.

Lemma run_propagates_exception_witness :
  run two_cities ([there_and_back] ++ short_pickups :: []) = Raise IndexError.
Proof.
  apply run_propagates_exception.
  - by repeat constructor.
  - by vm_compute.
Defined.

Lemma run_single_trip_witness :
  run two_cities [there_and_back] = Ok (expansion two_cities there_and_back).
Proof.
  apply (run_single_trip two_cities there_and_back 0 (0, zero_float)).
  - done.
  - by vm_compute.
  - done.
  - by left.
  - by vm_compute.
  - done.
Defined.

Lemma run_refuses_unlinked_end_witness :
  run two_cities [paid_return] = _baseline_admissible_path two_cities.
Proof.
  apply (run_refuses_unlinked_end two_cities [paid_return] (0, PyFloat 5)).
  - by repeat constructor.
  - by vm_compute.
  - done.
  - by vm_compute.
Defined.

Lemma run_refuses_chained_trips_witness :
  run two_cities ([] ++ there_and_back :: there_and_back :: [])
    = _baseline_admissible_path two_cities.
Proof.
  apply (run_refuses_chained_trips two_cities [] _ _ [] 0).
  - by repeat constructor.
  - done.
  - done.
  - by vm_compute.
Defined.

Lemma run_valid_iff_no_fallback_witness :
  (is_valid two_cities (expansion two_cities there_and_back) = true ↔
   ¬ falls_back two_cities [there_and_back]) ∧
  (∃ p, run two_cities [there_and_back] = Ok p).
Proof.
  destruct (run_valid_iff_no_fallback two_cities [there_and_back])
    as (H1 & _ & H3); [by vm_compute|by repeat constructor|].
  split; [apply H1; by vm_compute|apply H3, two_cities_in_range].
Defined.

Lemma baseline_stays_or_steps_witness :
  (1, zero_float).1 = (1, PyFloat 10).1 ∨
  has_edge two_cities (1, zero_float).1 (1, PyFloat 10).1 = true.
Proof.
  apply (baseline_stays_or_steps two_cities
           [(0, zero_float); (1, zero_float); (1, PyFloat 10);
            (0, zero_float); (0, zero_float)] 1); by vm_compute.
Defined.

Lemma two_cities_connected : connected two_cities 0 1 ∧ connected two_cities 1 0.
Proof.
  split; [exists [0; 1]|exists [1; 0]]; repeat split; by vm_compute.
Defined.

Lemma baseline_collects_all_gold_witness :
  ∃ p, _baseline_admissible_path two_cities = Ok p ∧
       Qeq (path_sum p) (total_gold two_cities).
Proof.
  apply baseline_collects_all_gold.
  { apply gold_exact_list.
    set (l := map_to_list _). vm_compute in l. subst l. by repeat constructor. }
  { by vm_compute. }
  intros i Hi.
  assert (number_of_nodes two_cities = 2%nat) as Hn by by vm_compute.
  assert (i = 1%nat) as -> by lia.
  split; [by vm_compute|apply two_cities_connected].
Defined.

Lemma baseline_without_round_trips_witness :
  _baseline_admissible_path no_origin = Ok [(0, zero_float); (0, zero_float)].
Proof.
  apply baseline_without_round_trips. intros i _. left. by vm_compute.
Defined.
